(** * blockchain.py: the ledger, its proof of work and its consensus rule

    A shallow embedding of [src/blockchain.py] (class [Blockchain] and the
    routes of the application) together with the properties of the ledger
    that the specification states.

    The program stores blocks and transactions as Python dicts, serialises
    them with [json.dumps(..., sort_keys=True)] and hashes the text with
    SHA-256.  The development follows that layering:

    - [SHA256]: the hash function of [hashlib.sha256], on bytes;
    - [Json]: Python values as the program builds and receives them, the
      text [json.dumps] gives for them, and the operations the program
      applies to them (subscription, truthiness, comparison to a str);
    - the class [Blockchain] and the [/mine] route, with the state of the
      object passed explicitly and exceptions as results.

    The clock, the network and the search for a proof are the three
    places where the program meets the outside: [time()] is an argument of
    the calls that read it, the answers of the peers are an argument of
    [resolve_conflicts], and [proof_of_work] takes a bound on the turns of
    its loop.  The other routes of the application are in [App].
    [register_node] and its route rest on [urlparse]; they are not part
    of the embedding.

    Definitions come first, then the vocabulary of the statements and the
    data of the examples, then the properties. *)

From Stdlib Require Import ZArith String Ascii Bool Lia DecimalString.
From Stdlib Require Import List Permutation OrdersEx.
Import ListNotations.

Local Open Scope Z_scope.

(** ** SHA-256 ([hashlib.sha256]) *)

Module SHA256.

(** Words are 32-bit: every sum is reduced by [w32]. *)
Definition mask32 : Z := 4294967295.
Definition w32 (x : Z) : Z := Z.land x mask32.
Definition add32 (x y : Z) : Z := w32 (x + y).
Definition rotr (n x : Z) : Z :=
  Z.lor (Z.shiftr x n) (w32 (Z.shiftl x (32 - n))).
Definition shr (n x : Z) : Z := Z.shiftr x n.
Definition not32 (x : Z) : Z := Z.lxor x mask32.

Definition Ch (x y z : Z) : Z := Z.lxor (Z.land x y) (Z.land (not32 x) z).
Definition Maj (x y z : Z) : Z :=
  Z.lxor (Z.lxor (Z.land x y) (Z.land x z)) (Z.land y z).
Definition Sigma0 (x : Z) : Z :=
  Z.lxor (Z.lxor (rotr 2 x) (rotr 13 x)) (rotr 22 x).
Definition Sigma1 (x : Z) : Z :=
  Z.lxor (Z.lxor (rotr 6 x) (rotr 11 x)) (rotr 25 x).
Definition sigma0 (x : Z) : Z :=
  Z.lxor (Z.lxor (rotr 7 x) (rotr 18 x)) (shr 3 x).
Definition sigma1 (x : Z) : Z :=
  Z.lxor (Z.lxor (rotr 17 x) (rotr 19 x)) (shr 10 x).

(** The round constants: the first 32 bits of the fractional parts of the
    cube roots of the first 64 primes (in decimal). *)
Definition K : list Z :=
  [ 1116352408; 1899447441; 3049323471; 3921009573; 961987163; 1508970993;
    2453635748; 2870763221; 3624381080; 310598401; 607225278; 1426881987;
    1925078388; 2162078206; 2614888103; 3248222580; 3835390401; 4022224774;
    264347078; 604807628; 770255983; 1249150122; 1555081692; 1996064986;
    2554220882; 2821834349; 2952996808; 3210313671; 3336571891; 3584528711;
    113926993; 338241895; 666307205; 773529912; 1294757372; 1396182291;
    1695183700; 1986661051; 2177026350; 2456956037; 2730485921; 2820302411;
    3259730800; 3345764771; 3516065817; 3600352804; 4094571909; 275423344;
    430227734; 506948616; 659060556; 883997877; 958139571; 1322822218;
    1537002063; 1747873779; 1955562222; 2024104815; 2227730452; 2361852424;
    2428436474; 2756734187; 3204031479; 3329325298 ].

(** The eight working variables. *)
Record regs : Set := Regs
  { ra : Z; rb : Z; rc : Z; rd : Z; re : Z; rf : Z; rg : Z; rh : Z }.

(** The initial hash value: square roots of the first 8 primes. *)
Definition init : regs :=
  Regs 1779033703 3144134277 1013904242 2773480762
       1359893119 2600822924 528734635 1541459225.

(** Padding: a 1 bit, zeros up to 56 mod 64 bytes, the bit length on 8
    bytes, most significant first. *)
Definition be_bytes (n : nat) (x : Z) : list Z :=
  map (fun i => Z.land (Z.shiftr x (8 * Z.of_nat i)) 255) (rev (seq 0 n)).

Definition pad (msg : list Z) : list Z :=
  let len := Z.of_nat (List.length msg) in
  msg ++ [128] ++ repeat 0 (Z.to_nat ((55 - len) mod 64)) ++ be_bytes 8 (8 * len).

(** Four bytes, most significant first, into one word. *)
Fixpoint words (bs : list Z) : list Z :=
  match bs with
  | b0 :: b1 :: b2 :: b3 :: rest =>
      (Z.shiftl b0 24 + Z.shiftl b1 16 + Z.shiftl b2 8 + b3) :: words rest
  | _ => []
  end.

(** The message schedule, kept most recent word first while it grows. *)
Fixpoint extend (n : nat) (rw : list Z) : list Z :=
  match n with
  | O => rw
  | S n' =>
      let w := add32 (add32 (sigma1 (nth 1 rw 0)) (nth 6 rw 0))
                     (add32 (sigma0 (nth 14 rw 0)) (nth 15 rw 0)) in
      extend n' (w :: rw)
  end.

Definition schedule (block : list Z) : list Z :=
  rev (extend 48 (rev (words block))).

Definition round (s : regs) (kw : Z * Z) : regs :=
  let t1 := add32 (add32 (add32 (rh s) (Sigma1 (re s)))
                         (add32 (Ch (re s) (rf s) (rg s)) (fst kw))) (snd kw) in
  let t2 := add32 (Sigma0 (ra s)) (Maj (ra s) (rb s) (rc s)) in
  Regs (add32 t1 t2) (ra s) (rb s) (rc s) (add32 (rd s) t1) (re s) (rf s) (rg s).

Definition compress (h : regs) (block : list Z) : regs :=
  let s := fold_left round (combine K (schedule block)) h in
  Regs (add32 (ra h) (ra s)) (add32 (rb h) (rb s))
       (add32 (rc h) (rc s)) (add32 (rd h) (rd s))
       (add32 (re h) (re s)) (add32 (rf h) (rf s))
       (add32 (rg h) (rg s)) (add32 (rh h) (rh s)).

Fixpoint blocks (n : nat) (h : regs) (bs : list Z) : regs :=
  match n with
  | O => h
  | S n' => blocks n' (compress h (firstn 64 bs)) (skipn 64 bs)
  end.

Definition digest (msg : list Z) : regs :=
  let p := pad msg in blocks (List.length p / 64) init p.

(** [hexdigest]: the 32 bytes in lowercase hexadecimal. *)
Definition hexchar (d : Z) : ascii :=
  ascii_of_nat (Z.to_nat (if d <? 10 then 48 + d else 87 + d)).

Definition hexword (w : Z) : list ascii :=
  map (fun i => hexchar (Z.land (Z.shiftr w (4 * Z.of_nat i)) 15))
      (rev (seq 0 8)).

Definition hex (s : regs) : string :=
  string_of_list_ascii
    (concat (map hexword [ra s; rb s; rc s; rd s; re s; rf s; rg s; rh s])).

(** The bytes of a str of code points below 256 that are all ASCII (as
    every text this program hashes is) are its characters. *)
Definition bytes_of (s : string) : list Z :=
  map (fun c => Z.of_nat (nat_of_ascii c)) (list_ascii_of_string s).

Definition hexdigest (s : string) : string := hex (digest (bytes_of s)).

End SHA256.

(** ** Python values and [json.dumps] *)

Module Json.

Local Open Scope string_scope.

(** The values the program handles: what it builds itself (ints, floats
    from [time()], strs, lists and dicts) and what [response.json()] hands
    it.  A dict is the list of its items in insertion order, with str keys.
    A str is a sequence of code points below 256.  A float is carried as
    the text [float.__repr__] gives for it (finite floats only): the
    program never computes with a float, it only serialises it. *)
#[local] Unset Elimination Schemes.
Inductive value : Type :=
| VNone
| VBool (b : bool)
| VInt (z : Z)
| VFloat (repr : string)
| VStr (s : string)
| VList (l : list value)
| VDict (items : list (string * value)).
#[local] Set Elimination Schemes.

(** [str(n)] for an int. *)
Definition str_of_int (z : Z) : string := NilZero.string_of_int (Z.to_int z).

(** *** [json.encoder.py_encode_basestring_ascii] *)

Definition dquote : ascii := "034"%char.
Definition bslash : ascii := "092"%char.
Definition str1 (c : ascii) : string := String c EmptyString.
Definition esc (c : ascii) : string := String bslash (str1 c).

Definition hexdigit (n : nat) : ascii :=
  ascii_of_nat (if (n <? 10)%nat then 48 + n else 87 + n).

Definition escape_char (c : ascii) : string :=
  let n := nat_of_ascii c in
  if (n =? 34)%nat then esc dquote
  else if (n =? 92)%nat then esc bslash
  else if (n =? 10)%nat then esc "n"
  else if (n =? 13)%nat then esc "r"
  else if (n =? 9)%nat then esc "t"
  else if (n =? 8)%nat then esc "b"
  else if (n =? 12)%nat then esc "f"
  else if ((32 <=? n) && (n <=? 126))%nat then str1 c
  else esc "u" ++ "00" ++ String (hexdigit (n / 16)) (str1 (hexdigit (n mod 16))).

Fixpoint escape (s : string) : string :=
  match s with
  | EmptyString => EmptyString
  | String c s' => escape_char c ++ escape s'
  end.

Definition encode_basestring_ascii (s : string) : string :=
  String dquote (escape s ++ str1 dquote).

(** *** [sorted(dct.items())]

    The keys of a dict are distinct, so the order of the items is decided
    by the keys alone; strs compare code point by code point. *)
Fixpoint insert {A : Type} (kv : string * A) (l : list (string * A))
  : list (string * A) :=
  match l with
  | [] => [kv]
  | h :: t => if String.leb (fst kv) (fst h) then kv :: l else h :: insert kv t
  end.

Definition sorted {A : Type} (l : list (string * A)) : list (string * A) :=
  fold_right insert [] l.

(** *** [json.dumps(obj, sort_keys=True)]

    Default separators, [ensure_ascii=True].  A dict's items are emitted by
    increasing key; each value is rendered before the items are put in
    order (see [dumps_dict] for the source's order: sort, then render). *)
Definition item_text (kv : string * string) : string :=
  encode_basestring_ascii (fst kv) ++ ": " ++ snd kv.

Fixpoint dumps (v : value) : string :=
  match v with
  | VNone => "null"
  | VBool true => "true"
  | VBool false => "false"
  | VInt z => str_of_int z
  | VFloat r => r
  | VStr s => encode_basestring_ascii s
  | VList l => "[" ++ String.concat ", " (map dumps l) ++ "]"
  | VDict d =>
      "{" ++ String.concat ", "
               (map item_text
                  (sorted (map (fun kv => (fst kv, dumps (snd kv))) d)))
          ++ "}"
  end.

(** *** Operations on values *)

(** Truth value of an object, as [or] and [if] test it. *)
Definition truthy (v : value) : bool :=
  match v with
  | VNone => false
  | VBool b => b
  | VInt z => negb (z =? 0)%Z
  | VFloat r => negb (String.eqb r "0.0" || String.eqb r "-0.0")
  | VStr s => negb (String.eqb s "")
  | VList l => match l with [] => false | _ => true end
  | VDict d => match d with [] => false | _ => true end
  end.

(** [d[k]] on the items of a dict. *)
Fixpoint lookup (k : string) (d : list (string * value)) : option value :=
  match d with
  | [] => None
  | (k', v) :: d' => if String.eqb k k' then Some v else lookup k d'
  end.

(** [v != s] where [s] is a str: only a str with the same characters is
    equal to [s]. *)
Definition ne_str (v : value) (s : string) : bool :=
  match v with
  | VStr t => negb (String.eqb t s)
  | _ => true
  end.

End Json.
Import Json.

(** ** Exceptions *)

(** What a call can end with, besides a value.  [Unmodelled] stands for
    the two computations on values that the embedding leaves out: [str()]
    of a proof that is not an int, and [+ 1] on a float index. *)
Inductive exn : Type :=
| IndexError
| KeyError (k : string)
| TypeError
| Unmodelled.

Inductive result (A : Type) : Type :=
| Ok (a : A)
| Raise (e : exn).
Arguments Ok {A} a.
Arguments Raise {A} e.

Definition bind {A B : Type} (r : result A) (k : A -> result B) : result B :=
  match r with
  | Ok a => k a
  | Raise e => Raise e
  end.

Notation "x <- r ;; k" := (bind r (fun x => k))
  (at level 61, r at next level, right associativity).

(** [v[k]] with a str [k]: only a dict can be subscripted by a str. *)
Definition subscript (v : value) (k : string) : result value :=
  match v with
  | VDict d =>
      match lookup k d with
      | Some x => Ok x
      | None => Raise (KeyError k)
      end
  | _ => Raise TypeError
  end.

(** [l[-1]]. *)
Definition last_item (l : list value) : result value :=
  match l with
  | [] => Raise IndexError
  | _ :: _ => Ok (last l VNone)
  end.

(** A proof as the int that [valid_proof] formats. *)
Definition as_int (v : value) : result Z :=
  match v with
  | VInt z => Ok z
  | _ => Raise Unmodelled
  end.

(** [v + 1]. *)
Definition plus_one (v : value) : result value :=
  match v with
  | VInt z => Ok (VInt (z + 1))
  | VBool b => Ok (VInt ((if b then 1 else 0) + 1))
  | VFloat _ => Raise Unmodelled
  | _ => Raise TypeError
  end.

(** ** class Blockchain *)

(** The object's attributes.  [nodes] is the set of registered peers. *)
Record Blockchain : Type := mkBlockchain
  { chain : list value;
    current_transactions : list value;
    nodes : list string }.

(** [Blockchain.hash]: SHA-256 of the block's JSON text, keys sorted. *)
Definition hash (block : value) : string := SHA256.hexdigest (dumps block).

(** [Blockchain.last_block] *)
Definition last_block (self : Blockchain) : result value :=
  last_item (chain self).

(** [Blockchain.new_block].  [time] is what [time()] returns at the call.
    The dict display is evaluated field by field; only the last field can
    raise, and it does so before anything is assigned. *)
Definition new_block (previous_hash proof : value) (time : string)
    (self : Blockchain) : result value * Blockchain :=
  let r :=
    if truthy previous_hash then Ok previous_hash
    else
      b <- last_item (chain self) ;;
      Ok (VStr (hash b)) in
  match r with
  | Raise e => (Raise e, self)
  | Ok ph =>
      let block :=
        VDict [ ("index", VInt (Z.of_nat (length (chain self)) + 1));
                ("timestamp", VFloat time);
                ("transactions", VList (current_transactions self));
                ("proof", proof);
                ("previous_hash", ph) ]%string in
      (Ok block,
       {| chain := chain self ++ [block];
          current_transactions := [];
          nodes := nodes self |})
  end.

(** [Blockchain.__init__]: an empty object, then the genesis block. *)
Definition empty : Blockchain :=
  {| chain := []; current_transactions := []; nodes := [] |}.

Definition init (time : string) : Blockchain :=
  snd (new_block (VInt 1) (VInt 100) time empty).

(** [Blockchain.new_transaction]: the append comes first and stays when
    the return expression raises. *)
Definition transaction (sender recipient amount : value) : value :=
  VDict [ ("sender", sender); ("recipient", recipient); ("amount", amount) ]%string.

Definition new_transaction (sender recipient amount : value)
    (self : Blockchain) : result value * Blockchain :=
  let self' :=
    {| chain := chain self;
       current_transactions :=
         current_transactions self ++ [transaction sender recipient amount];
       nodes := nodes self |} in
  (b <- last_block self' ;;
   i <- subscript b "index" ;;
   plus_one i,
   self').

(** [Blockchain.valid_proof], on ints as its docstring types it. *)
Definition valid_proof (last_proof proof : Z) : bool :=
  let guess := (str_of_int last_proof ++ str_of_int proof)%string in
  let guess_hash := SHA256.hexdigest guess in
  String.eqb (substring 0 4 guess_hash) "0000".

(** [Blockchain.proof_of_work]: the loop, with a bound on its iterations;
    [None] when the bound is reached before a proof is found. *)
Fixpoint proof_of_work_from (fuel : nat) (last_proof proof : Z) : option Z :=
  match fuel with
  | O => None
  | S fuel' =>
      if valid_proof last_proof proof then Some proof
      else proof_of_work_from fuel' last_proof (proof + 1)
  end.

Definition proof_of_work (fuel : nat) (last_proof : Z) : option Z :=
  proof_of_work_from fuel last_proof 0.

(** [Blockchain.valid_chain].  [chain[0]] raises on an empty list; the
    loop keeps [last_block] and walks the rest of the list.  What it
    prints is not part of the result. *)
Fixpoint valid_chain_from (last_block : value) (rest : list value)
  : result bool :=
  match rest with
  | [] => Ok true
  | block :: rest' =>
      ph <- subscript block "previous_hash" ;;
      if ne_str ph (hash last_block) then Ok false
      else
        lp <- subscript last_block "proof" ;;
        p <- subscript block "proof" ;;
        a <- as_int lp ;;
        b <- as_int p ;;
        if negb (valid_proof a b) then Ok false
        else valid_chain_from block rest'
  end.

Definition valid_chain (chain : list value) : result bool :=
  match chain with
  | [] => Raise IndexError
  | first :: rest => valid_chain_from first rest
  end.

(** What [requests.get] returned for one node: the status code and, in
    the body, the reported length and the chain. *)
Record response : Type := mkResponse
  { status_code : Z;
    json_length : Z;
    json_chain : list value }.

(** [Blockchain.resolve_conflicts], given the responses of the nodes in
    the order the set is iterated.  The loop carries [max_length] and
    [new_chain]; the object is assigned after the loop only. *)
Fixpoint resolve_loop (responses : list response) (max_length : Z)
    (new_chain : option (list value)) : result (option (list value)) :=
  match responses with
  | [] => Ok new_chain
  | r :: rest =>
      if status_code r =? 200 then
        if json_length r >? max_length then
          v <- valid_chain (json_chain r) ;;
          if v then resolve_loop rest (json_length r) (Some (json_chain r))
          else resolve_loop rest max_length new_chain
        else resolve_loop rest max_length new_chain
      else resolve_loop rest max_length new_chain
  end.

Definition resolve_conflicts (responses : list response)
    (self : Blockchain) : result bool * Blockchain :=
  match resolve_loop responses (Z.of_nat (length (chain self))) None with
  | Raise e => (Raise e, self)
  | Ok (Some (b :: c)) =>
      (Ok true,
       {| chain := b :: c;
          current_transactions := current_transactions self;
          nodes := nodes self |})
  | Ok _ => (Ok false, self)
  end.

(** The [/mine] route: the JSON body of its answer.  [None] when the
    search for a proof does not end within [fuel] steps. *)
Definition mine (fuel : nat) (node_identifier : string) (time : string)
    (self : Blockchain) : option (result value * Blockchain) :=
  match (lb <- last_block self ;;
         lp <- subscript lb "proof" ;;
         a <- as_int lp ;;
         Ok (lb, a)) with
  | Raise e => Some (Raise e, self)
  | Ok (lb, last_proof) =>
      match proof_of_work fuel last_proof with
      | None => None
      | Some proof =>
          let (r1, self1) :=
            new_transaction (VStr "0") (VStr node_identifier) (VInt 1) self in
          match r1 with
          | Raise e => Some (Raise e, self1)
          | Ok _ =>
              let (r2, self2) := new_block lb (VInt proof) time self1 in
              Some (block <- r2 ;;
                    i <- subscript block "index" ;;
                    t <- subscript block "transactions" ;;
                    p <- subscript block "proof" ;;
                    h <- subscript block "previous_hash" ;;
                    Ok (VDict [ ("message", VStr "New Block Forged");
                                ("index", i);
                                ("transactions", t);
                                ("proof", p);
                                ("previous_hash", h) ]%string),
                    self2)
          end
      end
  end.

(** ** The other routes

    Each route answers with a body and a status code; a body that
    [jsonify] builds is the value it was given. *)

Module App.

(** [k in values] for a str [k]: a key of a dict, an item of a list, a
    part of a str; other values are not containers. *)
Definition contains (values : value) (k : string) : result bool :=
  match values with
  | VDict d => Ok (match lookup k d with Some _ => true | None => false end)
  | VList l => Ok (existsb (fun x => negb (ne_str x k)) l)
  | VStr s => Ok (match String.index 0 k s with Some _ => true | None => false end)
  | _ => Raise TypeError
  end.

(** [all(k in values for k in required)]: it stops at the first key that
    is missing. *)
Fixpoint all_in (values : value) (required : list string) : result bool :=
  match required with
  | [] => Ok true
  | k :: rest =>
      b <- contains values k ;;
      if b then all_in values rest else Ok false
  end.

(** [POST /transactions/new], given what [request.get_json()] returned. *)
Definition new_transaction (values : value) (self : Blockchain)
  : result (value * Z) * Blockchain :=
  match all_in values ["sender"; "recipient"; "amount"]%string with
  | Raise e => (Raise e, self)
  | Ok false => (Ok (VStr "Missing values", 400), self)
  | Ok true =>
      match (s <- subscript values "sender" ;;
             r <- subscript values "recipient" ;;
             a <- subscript values "amount" ;;
             Ok (s, r, a)) with
      | Raise e => (Raise e, self)
      | Ok (s, r, a) =>
          let (res, self') := new_transaction s r a self in
          (index <- res ;;
           i <- as_int index ;;
           Ok (VDict [ ("message",
                        VStr ("Transaction will be added to Block "
                              ++ str_of_int i)) ]%string,
               201),
           self')
      end
  end.

(** [GET /chain] *)
Definition full_chain (self : Blockchain) : value * Z :=
  (VDict [ ("chain", VList (chain self));
           ("length", VInt (Z.of_nat (length (chain self)))) ]%string,
   200).

(** [GET /nodes/resolve], given the responses of the nodes. *)
Definition consensus (responses : list response) (self : Blockchain)
  : result (value * Z) * Blockchain :=
  let (res, self') := resolve_conflicts responses self in
  (replaced <- res ;;
   Ok (if replaced : bool
       then VDict [ ("message", VStr "Our chain was replaced");
                    ("new_chain", VList (chain self')) ]%string
       else VDict [ ("message", VStr "Our chain is authoritative");
                    ("chain", VList (chain self')) ]%string,
       200),
   self').

End App.

(** What [resolve_conflicts] reads of the answer of a node that serves
    [/chain]: the status code and, in the JSON body, the length and the
    chain. *)
Definition fetched (answer : value * Z) : option response :=
  match fst answer with
  | VDict d =>
      match lookup "length" d, lookup "chain" d with
      | Some (VInt n), Some (VList c) => Some (mkResponse (snd answer) n c)
      | _, _ => None
      end
  | _ => None
  end.

(** * The vocabulary of the statements *)

(** ** Chains *)

(** The two checks [valid_chain] makes on a block and its predecessor:
    the block carries the hash of its predecessor, and its proof is valid
    against the proof of its predecessor. *)
Definition hash_ok (prev block : value) : Prop :=
  subscript block "previous_hash" = Ok (VStr (hash prev)).

Definition proof_ok (prev block : value) : Prop :=
  exists a p : Z,
    subscript prev "proof" = Ok (VInt a) /\
    subscript block "proof" = Ok (VInt p) /\
    valid_proof a p = true.

Definition link_ok (prev block : value) : Prop :=
  hash_ok prev block /\ proof_ok prev block.

(** Every block after the first stands in [R] to the block just before
    it. *)
Definition chained (R : value -> value -> Prop) (c : list value) : Prop :=
  forall (i : nat) (prev block : value),
    nth_error c i = Some prev ->
    nth_error c (S i) = Some block ->
    R prev block.

Definition linked (c : list value) : Prop := chained link_ok c.

Definition proof_linked (c : list value) : Prop := chained proof_ok c.

(** A block that has the two fields [valid_chain] reads, its proof an int. *)
Definition block_ok (b : value) : Prop :=
  (exists ph, subscript b "previous_hash" = Ok ph) /\
  (exists p, subscript b "proof" = Ok (VInt p)).

(** Submitting the transactions of a list one after the other. *)
Definition submit_all (txs : list (value * value * value))
    (self : Blockchain) : Blockchain :=
  fold_left
    (fun s tx => snd (new_transaction (fst (fst tx)) (snd (fst tx)) (snd tx) s))
    txs self.

(** A ledger with two pending transactions. *)
Definition two_pending : Blockchain :=
  submit_all [ (VStr "alice", VStr "bob", VInt 5);
               (VStr "bob", VStr "carol", VInt 2) ]%string
             (init "1.5").

(** ** Ledgers

    The calls through which a ledger comes to be what it is. *)

(** The ledgers this node grows by itself: built by [__init__], then
    extended by its own calls, never by adopting the chain of a peer. *)
Inductive grown : Blockchain -> Prop :=
| grown_init (time : string) : grown (init time)
| grown_transaction (self : Blockchain) (sender recipient amount : value) :
    grown self ->
    grown (snd (new_transaction sender recipient amount self))
| grown_block (self : Blockchain) (previous_hash proof : value)
    (time : string) :
    grown self ->
    grown (snd (new_block previous_hash proof time self))
| grown_mine (self self' : Blockchain) (fuel : nat)
    (node_identifier time : string) (r : result value) :
    grown self ->
    mine fuel node_identifier time self = Some (r, self') ->
    grown self'.

(** The last block carries the length of the chain as its index. *)
Definition last_index_is_length (self : Blockchain) : Prop :=
  exists b : value,
    last_block self = Ok b /\
    subscript b "index" = Ok (VInt (Z.of_nat (length (chain self)))).

(** ** Data of the examples *)

(** A chain a peer can answer with: its two blocks are linked as
    [valid_chain] asks, and the second one says it is block 7. *)
Definition peer_genesis : value :=
  VDict [ ("index", VInt 1); ("timestamp", VFloat "1.5");
          ("transactions", VList []); ("proof", VInt 100);
          ("previous_hash", VInt 1) ]%string.

Definition peer_block : value :=
  VDict [ ("index", VInt 7); ("timestamp", VFloat "2.5");
          ("transactions", VList []); ("proof", VInt 35293);
          ("previous_hash", VStr (hash peer_genesis)) ]%string.

(** The ledger of a new node that adopted this chain. *)
Definition adopted : Blockchain :=
  snd (resolve_conflicts [mkResponse 200 2 [peer_genesis; peer_block]]
         (init "1.0")).

(** An answer that [resolve_conflicts] can take over a bound [n]: status
    200, a reported length above [n], and a chain that [valid_chain]
    accepts. *)
Definition qualifies (n : Z) (r : response) : Prop :=
  status_code r = 200 /\
  n < json_length r /\
  valid_chain (json_chain r) = Ok true.

(** An answer to which [resolve_conflicts] applies [valid_chain] when it
    comes after the answers [before] and none of them made the call
    raise: its status is 200 and it reports more than [max_length] is at
    that point, that is, more than the local length [n] and more than
    every qualifying answer before it. *)
Definition checked (n : Z) (before : list response) (r : response) : Prop :=
  status_code r = 200 /\
  n < json_length r /\
  forall r', In r' before -> qualifies n r' -> json_length r' < json_length r.

(** [valid_chain] raises [e] on an answer that is checked, and returned a
    bool on every answer checked before it. *)
Definition raises_at (n : Z) (rs : list response) (e : exn) : Prop :=
  exists (before : list response) (r : response) (after : list response),
    rs = before ++ r :: after /\
    checked n before r /\
    valid_chain (json_chain r) = Raise e /\
    forall b1 r1 b2,
      before = b1 ++ r1 :: b2 -> checked n b1 r1 ->
      exists v : bool, valid_chain (json_chain r1) = Ok v.

(** Three answers: a longer chain whose second block was tampered with, a
    node that did not answer 200, and a valid chain of two blocks. *)
Definition tampered_block : value :=
  VDict [ ("index", VInt 2); ("timestamp", VFloat "2.5");
          ("transactions", VList []); ("proof", VInt 35293);
          ("previous_hash", VStr "0000") ]%string.

Definition answers : list response :=
  [ mkResponse 200 3 [peer_genesis; tampered_block; peer_block];
    mkResponse 404 9 [];
    mkResponse 200 2 [peer_genesis; peer_block] ].

(** A ledger of two blocks, and an answer that reports three blocks and
    carries one. *)
Definition sealed : Blockchain :=
  snd (new_block VNone (VInt 35293) "2.5" (init "1.5")).

Definition overstated : response := mkResponse 200 3 [peer_genesis].

(** The ledgers whose blocks were all sealed with a proof of work:
    [new_block] was called with a proof that [valid_proof] accepts against
    the proof of the last block, by the caller or by the [/mine] route.
    Transactions and consensus rounds may come in between. *)
Inductive worked : Blockchain -> Prop :=
| worked_init (time : string) : worked (init time)
| worked_transaction (self : Blockchain) (sender recipient amount : value) :
    worked self ->
    worked (snd (new_transaction sender recipient amount self))
| worked_block (self : Blockchain) (previous_hash b : value)
    (a p : Z) (time : string) :
    worked self ->
    last_block self = Ok b ->
    subscript b "proof" = Ok (VInt a) ->
    valid_proof a p = true ->
    worked (snd (new_block previous_hash (VInt p) time self))
| worked_mine (self self' : Blockchain) (fuel : nat)
    (node_identifier time : string) (r : result value) :
    worked self ->
    mine fuel node_identifier time self = Some (r, self') ->
    worked self'
| worked_resolve (self : Blockchain) (rs : list response) :
    worked self ->
    worked (snd (resolve_conflicts rs self)).

(** Among them, the ledgers whose blocks were all sealed with care:
    by [new_block], called with such a proof and with [previous_hash] left
    out or equal to the hash of the last block. *)
Inductive careful : Blockchain -> Prop :=
| careful_init (time : string) : careful (init time)
| careful_transaction (self : Blockchain) (sender recipient amount : value) :
    careful self ->
    careful (snd (new_transaction sender recipient amount self))
| careful_block (self : Blockchain) (previous_hash b : value)
    (a p : Z) (time : string) :
    careful self ->
    last_block self = Ok b ->
    truthy previous_hash = false \/ previous_hash = VStr (hash b) ->
    subscript b "proof" = Ok (VInt a) ->
    valid_proof a p = true ->
    careful (snd (new_block previous_hash (VInt p) time self))
| careful_resolve (self : Blockchain) (rs : list response) :
    careful self ->
    careful (snd (resolve_conflicts rs self)).

(** A ledger whose second block was sealed with the proof 0. *)
Definition unproven : Blockchain :=
  snd (new_block VNone (VInt 0) "2.5" (init "1.5")).

(** A ledger of two blocks whose last proof, 18156495, has a successor
    that the search finds in 20 turns. *)
Definition before_mine : Blockchain :=
  snd (new_block VNone (VInt 18156495) "2.5" (init "1.5")).

(** ** Values with the same content *)

(** An induction principle for [value] that reaches the values inside
    lists and dicts. *)
Section ValueInd.

Variable P : value -> Prop.
Hypothesis Hnone : P VNone.
Hypothesis Hbool : forall b, P (VBool b).
Hypothesis Hint : forall z, P (VInt z).
Hypothesis Hfloat : forall r, P (VFloat r).
Hypothesis Hstr : forall s, P (VStr s).
Hypothesis Hlist : forall l, Forall P l -> P (VList l).
Hypothesis Hdict : forall d, Forall (fun kv => P (snd kv)) d -> P (VDict d).

Fixpoint value_nested_ind (v : value) : P v :=
  match v with
  | VNone => Hnone
  | VBool b => Hbool b
  | VInt z => Hint z
  | VFloat r => Hfloat r
  | VStr s => Hstr s
  | VList l =>
      Hlist l
        ((fix items (l : list value) : Forall P l :=
            match l with
            | [] => Forall_nil P
            | x :: l' => Forall_cons x (value_nested_ind x) (items l')
            end) l)
  | VDict d =>
      Hdict d
        ((fix items (d : list (string * value))
            : Forall (fun kv => P (snd kv)) d :=
            match d with
            | [] => Forall_nil _
            | kv :: d' =>
                Forall_cons kv (value_nested_ind (snd kv)) (items d')
            end) d)
  end.

End ValueInd.

(** Two values with the same content: equal scalars, lists with the same
    content item by item, dicts with the same keys and the same content
    under each key, in whatever order the items were inserted. *)
#[local] Unset Elimination Schemes.
Inductive same : value -> value -> Prop :=
| same_none : same VNone VNone
| same_bool (b : bool) : same (VBool b) (VBool b)
| same_int (z : Z) : same (VInt z) (VInt z)
| same_float (r : string) : same (VFloat r) (VFloat r)
| same_str (s : string) : same (VStr s) (VStr s)
| same_list (l1 l2 : list value) :
    Forall2 same l1 l2 -> same (VList l1) (VList l2)
| same_dict (d1 d d2 : list (string * value)) :
    Permutation d1 d ->
    Forall2 (fun kv1 kv2 => fst kv1 = fst kv2 /\ same (snd kv1) (snd kv2)) d d2 ->
    same (VDict d1) (VDict d2).

(** The keys of every dict inside a value are distinct, as they are in
    any Python dict. *)
Inductive proper : value -> Prop :=
| proper_none : proper VNone
| proper_bool (b : bool) : proper (VBool b)
| proper_int (z : Z) : proper (VInt z)
| proper_float (r : string) : proper (VFloat r)
| proper_str (s : string) : proper (VStr s)
| proper_list (l : list value) : Forall proper l -> proper (VList l)
| proper_dict (d : list (string * value)) :
    NoDup (map fst d) ->
    Forall (fun kv => proper (snd kv)) d ->
    proper (VDict d).
#[local] Set Elimination Schemes.

(** The same block built twice: once as [new_block] writes it, once with
    the fields (and those of its transaction) inserted in another order. *)
Definition block_a : value :=
  VDict [ ("index", VInt 2); ("timestamp", VFloat "2.5");
          ("transactions",
           VList [VDict [ ("sender", VStr "0"); ("recipient", VStr "node");
                          ("amount", VInt 1) ]]);
          ("proof", VInt 35293);
          ("previous_hash", VStr "24a5") ]%string.

Definition block_b : value :=
  VDict [ ("previous_hash", VStr "24a5"); ("proof", VInt 35293);
          ("transactions",
           VList [VDict [ ("amount", VInt 1); ("sender", VStr "0");
                          ("recipient", VStr "node") ]]);
          ("timestamp", VFloat "2.5"); ("index", VInt 2) ]%string.

(** ** Tactics for closed data *)

(** A permutation of a list of at most five items, given in full. *)
Ltac permute :=
  repeat first
    [ apply perm_nil
    | apply perm_skip
    | apply (Permutation_cons_app [_]); cbn [app]
    | apply (Permutation_cons_app [_; _]); cbn [app]
    | apply (Permutation_cons_app [_; _; _]); cbn [app]
    | apply (Permutation_cons_app [_; _; _; _]); cbn [app] ].

(** The keys of a dict given in full are distinct. *)
Ltac distinct :=
  cbn [map fst]; repeat constructor; cbn [In]; intuition discriminate.

(** [proper] on a value given in full. *)
Ltac properly :=
  repeat first
    [ apply proper_none | apply proper_bool | apply proper_int
    | apply proper_float | apply proper_str | apply proper_list
    | apply proper_dict; [distinct|]
    | apply Forall_nil
    | apply Forall_cons; cbn [snd] ].

(** [same] on scalars and lists given in full; dicts are left. *)
Ltac same_items :=
  repeat first
    [ apply Forall2_nil | apply same_none | apply same_bool | apply same_int
    | apply same_float | apply same_str | apply same_list
    | apply Forall2_cons; [split; [reflexivity | cbn [snd]]|]
    | apply Forall2_cons ].

(** [int_field] on a block given in full: an int under the key, or no
    such key. *)
Ltac int_field_of_block :=
  let v := fresh "v" in
  let H := fresh "H" in
  intros v H; vm_compute in H;
  first [ discriminate H | injection H as <-; eexists; reflexivity ].

(** ** Vocabulary of the further properties *)

(** The transaction that rewards the node for a block it mined. *)
Definition reward (node_identifier : string) : value :=
  transaction (VStr "0") (VStr node_identifier) (VInt 1).

(** The ledgers a node reaches from [self] by its own calls. *)
Inductive grows (self : Blockchain) : Blockchain -> Prop :=
| grows_refl : grows self self
| grows_transaction (self' : Blockchain) (sender recipient amount : value) :
    grows self self' ->
    grows self (snd (new_transaction sender recipient amount self'))
| grows_block (self' : Blockchain) (previous_hash proof : value)
    (time : string) :
    grows self self' ->
    grows self (snd (new_block previous_hash proof time self'))
| grows_mine (self' self'' : Blockchain) (fuel : nat)
    (node_identifier time : string) (r : result value) :
    grows self self' ->
    mine fuel node_identifier time self' = Some (r, self'') ->
    grows self self''.

(** Every block carries its position in the chain, from 1, as index. *)
Definition indexed (c : list value) : Prop :=
  forall (i : nat) (b : value),
    nth_error c i = Some b ->
    subscript b "index" = Ok (VInt (Z.of_nat i + 1)).

(** A block as the docstrings type it, as far as the program computes
    with it: what it holds under [k], if anything, is an int. *)
Definition int_field (k : string) (b : value) : Prop :=
  forall v, subscript b k = Ok v -> exists z : Z, v = VInt z.

Definition typed (b : value) : Prop :=
  int_field "proof" b /\ int_field "index" b.

(** The ledgers of the running program: built by [__init__], then changed
    by the routes only, the peers answering with typed blocks. *)
Inductive served : Blockchain -> Prop :=
| served_init (time : string) : served (init time)
| served_transaction (self : Blockchain) (values : value) :
    served self ->
    served (snd (App.new_transaction values self))
| served_mine (self self' : Blockchain) (fuel : nat)
    (node_identifier time : string) (r : result value) :
    served self ->
    mine fuel node_identifier time self = Some (r, self') ->
    served self'
| served_consensus (self : Blockchain) (rs : list response) :
    served self ->
    (forall r, In r rs -> status_code r = 200 ->
               Forall typed (json_chain r)) ->
    served (snd (App.consensus rs self)).

(** A pending transaction as [new_transaction] builds it. *)
Definition is_transaction (v : value) : Prop :=
  exists sender recipient amount : value,
    v = transaction sender recipient amount.

(** A ledger that adopted a chain of one block without index, whose proof
    30916 has the successor 2. *)
Definition bare_block : value := VDict [ ("proof", VInt 30916) ]%string.

Definition bare : Blockchain :=
  snd (resolve_conflicts [mkResponse 200 2 [bare_block]] (init "1.0")).

(** A node that adopted the chain of a peer, took a transaction and
    mined a block.  The last proof of the peer, 18156495, has a successor
    that the search finds in 20 turns. *)
Definition peer_block_quick : value :=
  VDict [ ("index", VInt 2); ("timestamp", VFloat "2.5");
          ("transactions", VList []); ("proof", VInt 18156495);
          ("previous_hash", VStr (hash peer_genesis)) ]%string.

Definition served_example : Blockchain :=
  let adopting :=
    snd (App.consensus [mkResponse 200 2 [peer_genesis; peer_block_quick]]
           (init "1.0")) in
  let paying :=
    snd (App.new_transaction
           (VDict [ ("sender", VStr "alice"); ("recipient", VStr "bob");
                    ("amount", VInt 5) ]%string)
           adopting) in
  match mine 20 "node" "3.5" paying with
  | Some (_, self) => self
  | None => paying
  end.

(** A chain whose second block is not a dict, and a second version of
    [peer_block], sealed a little later. *)
Definition broken_chain : list value := [peer_genesis; VInt 5].

Definition peer_block_later : value :=
  VDict [ ("index", VInt 2); ("timestamp", VFloat "2.75");
          ("transactions", VList []); ("proof", VInt 35293);
          ("previous_hash", VStr (hash peer_genesis)) ]%string.

(** The chain of the peer as another JSON parser could hand it over: the
    same fields, in another order. *)
Definition peer_genesis_shuffled : value :=
  VDict [ ("previous_hash", VInt 1); ("proof", VInt 100);
          ("transactions", VList []); ("timestamp", VFloat "1.5");
          ("index", VInt 1) ]%string.

Definition peer_block_shuffled : value :=
  VDict [ ("proof", VInt 35293);
          ("previous_hash", VStr (hash peer_genesis));
          ("index", VInt 7); ("transactions", VList []);
          ("timestamp", VFloat "2.5") ]%string.

(** A lowercase hexadecimal digit. *)
Definition is_hex (c : ascii) : Prop :=
  In c (list_ascii_of_string "0123456789abcdef").

(** * Properties *)

(** ** Known answers

    The hash function and the encoder on inputs whose answers
    [hashlib.sha256] and [json.dumps] give. *)

Example sha256_abc :
  SHA256.hexdigest "abc" =
  "ba7816bf8f01cfea414140de5dae2223b00361a396177a9cb410ff61f20015ad"%string.
Proof. vm_compute. reflexivity. Qed.

Example sha256_empty :
  SHA256.hexdigest "" =
  "e3b0c44298fc1c149afbf4c8996fb92427ae41e4649b934ca495991b7852b855"%string.
Proof. vm_compute. reflexivity. Qed.

Example sha256_two_blocks :
  SHA256.hexdigest (string_of_list_ascii (repeat "a"%char 200)) =
  "c2a908d98f5df987ade41b5fce213067efbcc21ef2240212a41e54b5e7c28ae5"%string.
Proof. vm_compute. reflexivity. Qed.

Example dumps_example :
  dumps (VDict [("b", VList [VInt 1; VNone; VBool true]);
                ("a", VDict [("y", VStr "q"); ("x", VFloat "1.5")])]%string)
  = String.concat (str1 dquote)
      ["{"; "a"; ": {"; "x"; ": 1.5, "; "y"; ": "; "q"; "}, ";
       "b"; ": [1, null, true]}"]%string.
Proof. vm_compute. reflexivity. Qed.

Example escape_example :
  encode_basestring_ascii
    (string_of_list_ascii
       ["a"; dquote; "b"; bslash; "c"; "010"; "001"; "127"; "233"; " "; "~"]%char)
  = string_of_list_ascii
      ([dquote; "a"; bslash; dquote; "b"; bslash; bslash; "c"; bslash; "n"]
       ++ list_ascii_of_string "\u0001\u007f\u00e9 ~" ++ [dquote])%char.
Proof. vm_compute. reflexivity. Qed.

Lemma hash_of_text (v1 v2 : value) : dumps v1 = dumps v2 -> hash v1 = hash v2.
Proof. unfold hash. now intros ->. Qed.

(** The proofs below never look inside the hash function: a digest is
    only ever computed on closed data. *)
Opaque hash valid_proof.

(** ** What links a block to the one before it *)

Lemma ne_str_false (v : value) (s : string) :
  ne_str v s = false <-> v = VStr s.
Proof.
  destruct v; simpl; split; try discriminate.
  - intros H. apply negb_false_iff, String.eqb_eq in H. now subst.
  - intros H. injection H as ->. now rewrite String.eqb_refl.
Qed.

Lemma as_int_ok (v : value) (z : Z) : as_int v = Ok z <-> v = VInt z.
Proof.
  destruct v; simpl; split; intros H; try discriminate; congruence.
Qed.

Section Chained.

Variable R : value -> value -> Prop.

Lemma chained_single (b : value) : chained R [b].
Proof.
  intros i prev block _ H. destruct i; discriminate.
Qed.

Lemma chained_cons (a b : value) (c : list value) :
  chained R (a :: b :: c) <-> R a b /\ chained R (b :: c).
Proof.
  split.
  - intros H. split.
    + now apply (H 0%nat).
    + intros i prev block H1 H2. now apply (H (S i)).
  - intros [Hl Hr] [|i] prev block H1 H2; simpl in *.
    + now injection H1 as <-; injection H2 as <-.
    + now apply (Hr i).
Qed.

(** A block appended is checked against the last block only. *)
Lemma chained_snoc (c : list value) (b : value) :
  c <> [] ->
  chained R (c ++ [b]) <-> chained R c /\ R (last c VNone) b.
Proof.
  induction c as [|x c IH]; intros Hne; [now elim Hne|].
  destruct c as [|y c].
  - cbn [app last]. rewrite chained_cons. split.
    + intros [H _]. split; [apply chained_single | exact H].
    + intros [_ H]. split; [exact H | apply chained_single].
  - change ((x :: y :: c) ++ [b]) with (x :: y :: (c ++ [b])).
    change (last (x :: y :: c) VNone) with (last (y :: c) VNone).
    rewrite !chained_cons, IH by discriminate. tauto.
Qed.

End Chained.

Lemma chained_impl (R R' : value -> value -> Prop) (c : list value) :
  (forall a b, R a b -> R' a b) -> chained R c -> chained R' c.
Proof.
  intros H Hc i prev block H1 H2. apply H. now apply (Hc i).
Qed.

(** One turn of the loop that neither returns nor raises. *)
Lemma valid_chain_from_step (prev block : value) (rest : list value) :
  link_ok prev block ->
  valid_chain_from prev (block :: rest) = valid_chain_from block rest.
Proof.
  intros [Hph (a & p & Ha & Hp & Hv)].
  cbn [valid_chain_from bind]. rewrite Hph. cbn [bind ne_str].
  rewrite String.eqb_refl. cbn [negb].
  rewrite Ha, Hp. cbn [bind as_int]. now rewrite Hv.
Qed.

Lemma valid_chain_from_true (prev : value) (rest : list value) :
  valid_chain_from prev rest = Ok true <-> linked (prev :: rest).
Proof.
  revert prev. induction rest as [|block rest IH]; intros prev.
  - split; [intros _; apply chained_single | reflexivity].
  - unfold linked. rewrite chained_cons. fold (linked (block :: rest)).
    rewrite <- IH. split.
    + intros H. simpl in H.
      destruct (subscript block "previous_hash") as [ph|] eqn:Hph;
        simpl in H; [|discriminate].
      destruct (ne_str ph (hash prev)) eqn:Hne; [discriminate|].
      apply ne_str_false in Hne. subst ph.
      destruct (subscript prev "proof") as [lp|] eqn:Hlp;
        simpl in H; [|discriminate].
      destruct (subscript block "proof") as [p|] eqn:Hp;
        simpl in H; [|discriminate].
      destruct (as_int lp) as [a|] eqn:Ha; simpl in H; [|discriminate].
      destruct (as_int p) as [b|] eqn:Hb; simpl in H; [|discriminate].
      apply as_int_ok in Ha, Hb. subst lp p.
      destruct (valid_proof a b) eqn:Hv; simpl in H; [|discriminate].
      split; [|exact H]. split; [exact Hph|]. now exists a, b.
    + intros [Hl Hr]. now rewrite valid_chain_from_step.
Qed.

(** On blocks that have the fields, the walk never raises. *)
Lemma valid_chain_from_total (prev : value) (rest : list value) :
  Forall block_ok (prev :: rest) ->
  exists v : bool, valid_chain_from prev rest = Ok v.
Proof.
  revert prev. induction rest as [|block rest IH]; intros prev H.
  - now exists true.
  - inversion H as [|? ? [_ [a Ha]] H']; subst.
    pose proof H' as H''.
    inversion H' as [|? ? [[ph Hph] [p Hp]] _]; subst.
    simpl. rewrite Hph. simpl.
    destruct (ne_str ph (hash prev)); [now exists false|].
    rewrite Ha, Hp. simpl.
    destruct (valid_proof a p); simpl; [|now exists false].
    now apply IH.
Qed.

(** The walk stops at the first block that fails a check: what follows it
    is not read. *)
Lemma valid_chain_from_stops (prev : value) (c rest : list value) :
  valid_chain_from prev c = Ok false ->
  valid_chain_from prev (c ++ rest) = Ok false.
Proof.
  revert prev. induction c as [|block c IH]; intros prev H.
  - discriminate.
  - simpl in *.
    destruct (subscript block "previous_hash") as [ph|]; simpl in *;
      [|discriminate].
    destruct (ne_str ph (hash prev)); [reflexivity|].
    destruct (subscript prev "proof") as [lp|]; simpl in *; [|discriminate].
    destruct (subscript block "proof") as [p|]; simpl in *; [|discriminate].
    destruct (as_int lp) as [a|]; simpl in *; [|discriminate].
    destruct (as_int p) as [b|]; simpl in *; [|discriminate].
    destruct (valid_proof a b); simpl in *; [|reflexivity].
    now apply IH.
Qed.

Lemma valid_chain_true (c : list value) :
  valid_chain c = Ok true <-> c <> [] /\ linked c.
Proof.
  destruct c as [|b rest]; simpl.
  - split; [discriminate | intros [H _]; now elim H].
  - rewrite valid_chain_from_true. split; [|tauto].
    intros H. split; [discriminate | exact H].
Qed.

(** C6.  For a candidate chain that is not empty, [valid_chain] returns
    True exactly when every block after the first carries the hash of the
    block before it as [previous_hash] and a proof that [valid_proof]
    accepts against the proof of the block before it.  On blocks that have
    the fields it returns a bool, so False exactly when some link fails; a
    failed check ends the walk, whatever follows; a chain of one block is
    valid, and so is the chain of a new ledger. *)
Theorem valid_chain_iff_linked (c : list value) :
  c <> [] ->
  (valid_chain c = Ok true <-> linked c) /\
  (Forall block_ok c ->
     (valid_chain c = Ok true \/ valid_chain c = Ok false) /\
     (valid_chain c = Ok false <-> ~ linked c)) /\
  (forall rest, valid_chain c = Ok false ->
                valid_chain (c ++ rest) = Ok false) /\
  (length c = 1%nat -> valid_chain c = Ok true) /\
  (forall time, valid_chain (chain (init time)) = Ok true).
Proof.
  intros Hne. destruct c as [|b rest]; [now elim Hne|].
  assert (Hiff : valid_chain (b :: rest) = Ok true <-> linked (b :: rest))
    by apply valid_chain_from_true.
  split; [exact Hiff|].
  split; [|split; [|split]].
  - intros Hok.
    destruct (valid_chain_from_total b rest Hok) as [v Hv].
    change (valid_chain (b :: rest) = Ok v) in Hv.
    rewrite Hv in *. split.
    + destruct v; auto.
    + split.
      * intros Hf Hl. apply Hiff in Hl. congruence.
      * intros Hn. destruct v; [|reflexivity].
        elim Hn. now apply Hiff.
  - intros rest'. apply valid_chain_from_stops.
  - intros Hlen. destruct rest; [reflexivity | discriminate].
  - reflexivity.
Qed.

(** The chain of two blocks that [new_block] builds with the proof 35293,
    valid against 100. *)
Lemma valid_chain_iff_linked_witness :
  let c := chain (snd (new_block VNone (VInt 35293) "2.5" (init "1.5"))) in
  c <> [] /\ valid_chain c = Ok true /\ linked c.
Proof.
  intros c.
  assert (Hne : c <> []) by discriminate.
  pose proof (valid_chain_iff_linked c Hne) as [Hiff _].
  assert (Hv : valid_chain c = Ok true) by (vm_compute; reflexivity).
  split; [exact Hne | split; [exact Hv | apply Hiff, Hv]].
Defined.

(** Answers that report no more than [n] blocks are passed over. *)
Lemma resolve_loop_skips (before rs : list response) (n : Z)
    (nc : option (list value)) :
  (forall r, In r before -> status_code r = 200 -> json_length r <= n) ->
  resolve_loop (before ++ rs) n nc = resolve_loop rs n nc.
Proof.
  induction before as [|r before IH]; intros H; [reflexivity|].
  cbn [app resolve_loop].
  assert (IH' : resolve_loop (before ++ rs) n nc = resolve_loop rs n nc)
    by (apply IH; intros r' Hin; apply H; now right).
  destruct (status_code r =? 200) eqn:Hs; [|exact IH'].
  apply Z.eqb_eq in Hs.
  replace (json_length r >? n) with false; [exact IH'|].
  symmetry. rewrite Z.gtb_ltb. apply Z.ltb_ge. apply H; [now left | exact Hs].
Qed.

(** C10.  [valid_chain] reads [chain[0]] before anything else: on an empty
    list it raises IndexError and returns no bool.  [resolve_conflicts]
    runs into it when a node answers with an empty chain and a length
    above the local one (the answers before it reporting no more than the
    local length); the exception leaves the object as it was. *)
Theorem valid_chain_empty_raises :
  valid_chain [] = Raise IndexError /\
  forall (self : Blockchain) (len : Z) (before rest : list response),
    (forall r, In r before -> status_code r = 200 ->
               json_length r <= Z.of_nat (length (chain self))) ->
    Z.of_nat (length (chain self)) < len ->
    resolve_conflicts (before ++ mkResponse 200 len [] :: rest) self
    = (Raise IndexError, self).
Proof.
  split; [reflexivity|].
  intros self len before rest Hb H. unfold resolve_conflicts.
  rewrite resolve_loop_skips by exact Hb.
  cbn [resolve_loop status_code json_length json_chain Z.eqb Pos.eqb].
  replace (len >? Z.of_nat (length (chain self))) with true
    by (symmetry; apply Z.gtb_lt; lia).
  reflexivity.
Qed.

(** ** Sealing a block *)

Lemma submit_all_pool (txs : list (value * value * value)) (self : Blockchain) :
  chain (submit_all txs self) = chain self /\
  nodes (submit_all txs self) = nodes self /\
  current_transactions (submit_all txs self)
  = current_transactions self
    ++ map (fun tx => transaction (fst (fst tx)) (snd (fst tx)) (snd tx)) txs.
Proof.
  revert self. induction txs as [|tx txs IH]; intros self.
  - simpl. now rewrite app_nil_r.
  - change (submit_all (tx :: txs) self)
      with (submit_all txs
              (snd (new_transaction (fst (fst tx)) (snd (fst tx)) (snd tx) self))).
    destruct (IH (snd (new_transaction (fst (fst tx)) (snd (fst tx)) (snd tx) self)))
      as (Hc & Hn & Hp).
    rewrite Hc, Hn, Hp. cbn [new_transaction snd chain nodes current_transactions map].
    now rewrite <- app_assoc.
Qed.

Lemma new_block_ok (previous_hash proof : value) (time : string)
    (self : Blockchain) (ph : value) :
  (if truthy previous_hash then Ok previous_hash
   else b <- last_item (chain self) ;; Ok (VStr (hash b))) = Ok ph ->
  let block :=
    VDict [ ("index", VInt (Z.of_nat (length (chain self)) + 1));
            ("timestamp", VFloat time);
            ("transactions", VList (current_transactions self));
            ("proof", proof);
            ("previous_hash", ph) ]%string in
  new_block previous_hash proof time self
  = (Ok block,
     {| chain := chain self ++ [block];
        current_transactions := [];
        nodes := nodes self |}).
Proof.
  intros H. unfold new_block. now rewrite H.
Qed.

Lemma last_item_ok (l : list value) :
  l <> [] -> last_item l = Ok (last l VNone).
Proof.
  destruct l; [intros H; now elim H | reflexivity].
Qed.

(** C5.  Whatever the proof and the [previous_hash] given, [new_block]
    empties the pool of pending transactions, appends exactly one block
    to the chain, and that block holds the transactions that were pending,
    in the order they were submitted.  A [previous_hash] that is left out
    (None, or any other value that counts as false) is replaced by the
    hash of the last block; one that is given is stored as it is.  The
    chain is never empty once the ledger is built, which is all the call
    needs to compute that hash. *)
Theorem new_block_seals_pending (self : Blockchain)
    (previous_hash proof : value) (time : string) :
  (truthy previous_hash = false -> chain self <> []) ->
  exists block : value,
    new_block previous_hash proof time self
    = (Ok block,
       {| chain := chain self ++ [block];
          current_transactions := [];
          nodes := nodes self |}) /\
    subscript block "transactions" = Ok (VList (current_transactions self)) /\
    subscript block "proof" = Ok proof /\
    subscript block "index" = Ok (VInt (Z.of_nat (length (chain self)) + 1)) /\
    (truthy previous_hash = true ->
       subscript block "previous_hash" = Ok previous_hash) /\
    (truthy previous_hash = false ->
       subscript block "previous_hash"
       = Ok (VStr (hash (last (chain self) VNone)))) /\
    (forall (self0 : Blockchain) (txs : list (value * value * value)),
       current_transactions self0 = [] ->
       self = submit_all txs self0 ->
       subscript block "transactions"
       = Ok (VList (map (fun tx => transaction (fst (fst tx)) (snd (fst tx))
                                               (snd tx)) txs))).
Proof.
  intros Hne.
  assert (Hsub : forall self0 txs,
             current_transactions self0 = [] ->
             self = submit_all txs self0 ->
             current_transactions self
             = map (fun tx => transaction (fst (fst tx)) (snd (fst tx)) (snd tx))
                   txs).
  { intros self0 txs H0 ->.
    destruct (submit_all_pool txs self0) as (_ & _ & ->). now rewrite H0. }
  destruct (truthy previous_hash) eqn:Ht.
  - eexists. split; [apply new_block_ok; rewrite Ht; reflexivity|].
    repeat split; try reflexivity; try discriminate.
    intros self0 txs H0 Hs. cbn. now rewrite (Hsub self0 txs H0 Hs).
  - eexists. split.
    + apply new_block_ok. rewrite Ht, (last_item_ok _ (Hne eq_refl)).
      reflexivity.
    + repeat split; try reflexivity; try discriminate.
      intros self0 txs H0 Hs. cbn. now rewrite (Hsub self0 txs H0 Hs).
Qed.

(** Two transactions are pending; the block sealed holds both, in order,
    and the hash of the genesis block. *)
Lemma new_block_seals_pending_witness :
  (truthy VNone = false -> chain two_pending <> []) /\
  exists block : value,
    fst (new_block VNone (VInt 35293) "2.5" two_pending) = Ok block /\
    current_transactions (snd (new_block VNone (VInt 35293) "2.5" two_pending))
    = [] /\
    subscript block "transactions"
    = Ok (VList [ transaction (VStr "alice") (VStr "bob") (VInt 5);
                  transaction (VStr "bob") (VStr "carol") (VInt 2) ]) /\
    subscript block "previous_hash"
    = Ok (VStr (hash (last (chain two_pending) VNone))).
Proof.
  assert (Hne : truthy VNone = false -> chain two_pending <> [])
    by (intros _; discriminate).
  split; [exact Hne|].
  destruct (new_block_seals_pending two_pending VNone (VInt 35293) "2.5" Hne)
    as (block & Hb & _ & _ & _ & _ & Hph & Htx).
  exists block. rewrite Hb. cbn [fst snd current_transactions].
  split; [reflexivity|]. split; [reflexivity|].
  split; [exact (Htx (init "1.5") _ eq_refl eq_refl) | exact (Hph eq_refl)].
Defined.

(** C9.  [new_block] takes the proof as it comes: it never calls
    [valid_proof].  For every int, whether or not it is a valid proof
    against the proof of the last block, the block is built with it and
    appended, and the call raises nothing. *)
Theorem new_block_never_verifies (self : Blockchain)
    (previous_hash : value) (proof : Z) (time : string) :
  (truthy previous_hash = false -> chain self <> []) ->
  exists block : value,
    fst (new_block previous_hash (VInt proof) time self) = Ok block /\
    chain (snd (new_block previous_hash (VInt proof) time self))
    = chain self ++ [block] /\
    subscript block "proof" = Ok (VInt proof) /\
    forall (b : value) (a : Z) (verdict : bool),
      last_block self = Ok b ->
      subscript b "proof" = Ok (VInt a) ->
      valid_proof a proof = verdict ->
      last_block (snd (new_block previous_hash (VInt proof) time self))
      = Ok block.
Proof.
  intros Hne.
  assert (H : exists ph,
             (if truthy previous_hash then Ok previous_hash
              else b <- last_item (chain self) ;; Ok (VStr (hash b))) = Ok ph).
  { destruct (truthy previous_hash); [now eexists|].
    rewrite (last_item_ok _ (Hne eq_refl)). now eexists. }
  destruct H as [ph Hph].
  rewrite (new_block_ok _ _ _ _ _ Hph). cbn [fst snd chain].
  eexists. split; [reflexivity|]. split; [reflexivity|].
  split; [reflexivity|].
  intros b a verdict _ _ _. unfold last_block. cbn [chain].
  rewrite last_item_ok by (intros E; now apply app_eq_nil in E as [_ E]).
  now rewrite last_last.
Qed.

(** The proof 0 is not valid against the proof 100 of the genesis block,
    and the block that carries it becomes the last block of the chain. *)
Lemma new_block_never_verifies_witness :
  valid_proof 100 0 = false /\
  exists block : value,
    fst (new_block VNone (VInt 0) "2.5" (init "1.5")) = Ok block /\
    subscript block "proof" = Ok (VInt 0) /\
    last_block (snd (new_block VNone (VInt 0) "2.5" (init "1.5"))) = Ok block.
Proof.
  split; [vm_compute; reflexivity|].
  destruct (new_block_never_verifies (init "1.5") VNone 0 "2.5")
    as (block & Hb & _ & Hp & Hl); [intros _; discriminate|].
  exists block. split; [exact Hb|]. split; [exact Hp|].
  apply (Hl (last (chain (init "1.5")) VNone) 100 false);
    [reflexivity | reflexivity | vm_compute; reflexivity].
Defined.

(** ** Submitting a transaction *)

(** [new_transaction] reads the index of the last block and adds one. *)
Lemma new_transaction_last_index (self : Blockchain)
    (sender recipient amount b : value) (i : Z) :
  last_block self = Ok b ->
  subscript b "index" = Ok (VInt i) ->
  new_transaction sender recipient amount self
  = (Ok (VInt (i + 1)),
     {| chain := chain self;
        current_transactions :=
          current_transactions self ++ [transaction sender recipient amount];
        nodes := nodes self |}).
Proof.
  intros Hb Hi. unfold new_transaction, last_block in *. cbn [chain].
  now rewrite Hb; cbn [bind]; rewrite Hi.
Qed.

Lemma new_block_last_index (self : Blockchain)
    (previous_hash proof : value) (time : string) :
  last_index_is_length self ->
  last_index_is_length (snd (new_block previous_hash proof time self)).
Proof.
  intros (b & Hb & Hi). unfold new_block.
  destruct (if truthy previous_hash then Ok previous_hash
            else b0 <- last_item (chain self) ;; Ok (VStr (hash b0)))
    as [ph|e]; cbn [snd].
  - eexists. unfold last_block. cbn [chain]. split.
    + rewrite last_item_ok by (intros E; now apply app_eq_nil in E as [_ E]).
      now rewrite last_last.
    + rewrite length_app, Nat2Z.inj_add. reflexivity.
  - now exists b.
Qed.

Lemma grown_last_index (self : Blockchain) :
  grown self -> last_index_is_length self.
Proof.
  induction 1 as [time | self s r a _ IH | self ph p time _ IH
                 | self self' fuel n time r _ IH Hm].
  - eexists. split; reflexivity.
  - exact IH.
  - now apply new_block_last_index.
  - unfold mine in Hm.
    destruct (lb <- last_block self ;; lp <- subscript lb "proof" ;;
              a <- as_int lp ;; Ok (lb, a)) as [[lb a]|e].
    + destruct (proof_of_work fuel a) as [proof|]; [|discriminate].
      destruct (new_transaction (VStr "0") (VStr n) (VInt 1) self)
        as [r1 self1] eqn:H1.
      assert (Hs1 : last_index_is_length self1).
      { replace self1
          with (snd (new_transaction (VStr "0") (VStr n) (VInt 1) self))
          by now rewrite H1.
        exact IH. }
      destruct r1 as [v|e].
      * destruct (new_block lb (VInt proof) time self1) as [r2 self2] eqn:H2.
        injection Hm as _ <-.
        replace self2 with (snd (new_block lb (VInt proof) time self1))
          by now rewrite H2.
        now apply new_block_last_index.
      * now injection Hm as _ <-.
    + now injection Hm as _ <-.
Qed.

(** X20.  On a ledger that the node grew by itself, by [new_block],
    [new_transaction] and [mine] since it was built, the docstring of
    [new_transaction] holds: the call does not fail, appends one
    transaction to the pending pool and returns the chain length plus 1,
    and whatever block [new_block] seals next carries that number as its
    index and holds the transaction. *)
Theorem new_transaction_next_index (self : Blockchain)
    (sender recipient amount : value) :
  grown self ->
  new_transaction sender recipient amount self
  = (Ok (VInt (Z.of_nat (length (chain self)) + 1)),
     {| chain := chain self;
        current_transactions :=
          current_transactions self ++ [transaction sender recipient amount];
        nodes := nodes self |}) /\
  forall (previous_hash proof : value) (time : string) (block : value),
    fst (new_block previous_hash proof time
           (snd (new_transaction sender recipient amount self)))
    = Ok block ->
    subscript block "index" = Ok (VInt (Z.of_nat (length (chain self)) + 1)) /\
    subscript block "transactions"
    = Ok (VList (current_transactions self
                 ++ [transaction sender recipient amount])).
Proof.
  intros Hg. destruct (grown_last_index self Hg) as (b & Hb & Hi).
  split; [now apply new_transaction_last_index with (b := b)|].
  intros previous_hash proof time block.
  cbn [new_transaction snd]. unfold new_block. cbn [chain current_transactions].
  destruct (if truthy previous_hash then Ok previous_hash
            else b0 <- last_item (chain self) ;; Ok (VStr (hash b0)))
    as [ph|e]; cbn [fst]; [|discriminate].
  intros [= <-]. split; reflexivity.
Qed.

(** On a new ledger with two pending transactions the next block is
    block 2. *)
Lemma new_transaction_next_index_witness :
  grown two_pending /\
  new_transaction (VStr "carol") (VStr "dave") (VInt 1) two_pending
  = (Ok (VInt 2),
     {| chain := chain two_pending;
        current_transactions :=
          current_transactions two_pending
          ++ [transaction (VStr "carol") (VStr "dave") (VInt 1)];
        nodes := nodes two_pending |}).
Proof.
  assert (H : grown two_pending).
  { unfold two_pending, submit_all. cbn [fold_left fst snd].
    do 2 apply grown_transaction. apply grown_init. }
  split; [exact H|].
  exact (proj1 (new_transaction_next_index two_pending
                  (VStr "carol") (VStr "dave") (VInt 1) H)).
Defined.

(** C7.  The docstring of [new_transaction] promises the index of the
    block that will hold the transaction, and [new_block] numbers that
    block [len(self.chain) + 1]; but [new_transaction] returns the index
    field of the last block plus 1.  The ledger [adopted] took the chain
    of a peer whose second block says it is block 7 ([valid_chain] does
    not read the index): the chain has two blocks, [new_transaction]
    answers 8, and the block that then holds the transaction is block
    3. *)
Lemma new_transaction_names_wrong_block :
  chain adopted = [peer_genesis; peer_block] /\
  fst (new_transaction (VStr "alice") (VStr "bob") (VInt 5) adopted)
  = Ok (VInt 8) /\
  Z.of_nat (length (chain adopted)) + 1 = 3 /\
  fst (new_block VNone (VInt 0) "3.5"
         (snd (new_transaction (VStr "alice") (VStr "bob") (VInt 5) adopted)))
  = Ok (VDict [ ("index", VInt 3); ("timestamp", VFloat "3.5");
                ("transactions",
                 VList [transaction (VStr "alice") (VStr "bob") (VInt 5)]);
                ("proof", VInt 0);
                ("previous_hash", VStr (hash peer_block)) ]%string).
Proof.
  vm_compute. repeat split; reflexivity.
Qed.

(** ** Proof of work *)

Lemma proof_of_work_from_sound (fuel : nat) (a : Z) :
  forall start p : Z,
    proof_of_work_from fuel a start = Some p ->
    start <= p /\ valid_proof a p = true /\
    forall q : Z, start <= q < p -> valid_proof a q = false.
Proof.
  induction fuel as [|fuel IH]; intros start p H; [discriminate|].
  cbn [proof_of_work_from] in H.
  destruct (valid_proof a start) eqn:Hv.
  - injection H as <-. repeat split; [lia | exact Hv | lia].
  - destruct (IH _ _ H) as (Hle & Hp & Hmin).
    repeat split; [lia | exact Hp |].
    intros q Hq. destruct (Z.eq_dec q start) as [->|Hn]; [exact Hv|].
    apply Hmin. lia.
Qed.

(** More fuel does not change an answer. *)
Lemma proof_of_work_from_mono (fuel fuel' : nat) (a : Z) :
  (fuel <= fuel')%nat ->
  forall start p : Z,
    proof_of_work_from fuel a start = Some p ->
    proof_of_work_from fuel' a start = Some p.
Proof.
  revert fuel'. induction fuel as [|fuel IH]; intros fuel' Hle start p H;
    [discriminate|].
  destruct fuel' as [|fuel']; [lia|].
  cbn [proof_of_work_from] in *.
  destruct (valid_proof a start); [exact H|].
  apply IH; [lia | exact H].
Qed.

(** If a proof exists [n] steps ahead, [n + 1] turns of the loop find one. *)
Lemma proof_of_work_from_finds (a : Z) (n : nat) :
  forall start : Z,
    valid_proof a (start + Z.of_nat n) = true ->
    exists p : Z, proof_of_work_from (S n) a start = Some p.
Proof.
  induction n as [|n IH]; intros start H.
  - cbn [proof_of_work_from]. replace (start + Z.of_nat 0) with start in H by lia.
    rewrite H. now eexists.
  - cbn [proof_of_work_from]. destruct (valid_proof a start); [now eexists|].
    apply IH. rewrite <- H. f_equal. lia.
Qed.

(** C4.  When [proof_of_work] returns, it returns the least int from 0 up
    that [valid_proof] accepts against [last_proof], so [valid_proof]
    accepts what it returns.  It does return as soon as any int from 0 up
    is a valid proof: the search ends at the least one, within as many
    turns as that int plus one. *)
Theorem proof_of_work_least (last_proof : Z) :
  (forall (fuel : nat) (p : Z),
     proof_of_work fuel last_proof = Some p ->
     0 <= p /\ valid_proof last_proof p = true /\
     (forall q : Z, 0 <= q < p -> valid_proof last_proof q = false) /\
     (forall fuel' : nat, (fuel <= fuel')%nat ->
                          proof_of_work fuel' last_proof = Some p)) /\
  (forall q : Z,
     0 <= q -> valid_proof last_proof q = true ->
     exists p : Z,
       p <= q /\
       forall fuel : nat, (Z.to_nat q < fuel)%nat ->
                          proof_of_work fuel last_proof = Some p).
Proof.
  split.
  - intros fuel p H. unfold proof_of_work in *.
    destruct (proof_of_work_from_sound _ _ _ _ H) as (H0 & Hv & Hmin).
    repeat split; try assumption.
    intros fuel' Hle. now apply proof_of_work_from_mono with (fuel := fuel).
  - intros q Hq Hv. unfold proof_of_work.
    destruct (proof_of_work_from_finds last_proof (Z.to_nat q) 0) as [p Hp].
    { now rewrite Z2Nat.id. }
    exists p. split.
    + destruct (proof_of_work_from_sound _ _ _ _ Hp) as (_ & _ & Hmin).
      destruct (Z_le_gt_dec p q) as [Hle|Hgt]; [exact Hle|].
      rewrite Hmin in Hv by lia. discriminate.
    + intros fuel Hf.
      apply proof_of_work_from_mono with (fuel := S (Z.to_nat q)); [lia | exact Hp].
Qed.

(** The search on a small instance: 0 and 1 fail against 30916, 2 is a
    valid proof; two turns are not enough to find it. *)
Example proof_of_work_30916 :
  proof_of_work 3 30916 = Some 2 /\ proof_of_work 2 30916 = None /\
  valid_proof 100 35293 = true.
Proof. vm_compute. repeat split; reflexivity. Qed.

(** ** Consensus *)

(** No answer reports more than [n]: the loop validates nothing and keeps
    what it had. *)
Lemma resolve_loop_none_longer (rs : list response) (n : Z)
    (nc : option (list value)) :
  (forall r, In r rs -> status_code r = 200 -> json_length r <= n) ->
  resolve_loop rs n nc = Ok nc.
Proof.
  induction rs as [|r rs IH]; intros H; [reflexivity|].
  cbn [resolve_loop].
  destruct (status_code r =? 200) eqn:Hs.
  - apply Z.eqb_eq in Hs.
    replace (json_length r >? n) with false.
    + apply IH. intros r' Hin. apply H. now right.
    + symmetry. rewrite Z.gtb_ltb. apply Z.ltb_ge. apply H; [now left | exact Hs].
  - apply IH. intros r' Hin. apply H. now right.
Qed.

(** What the loop ends with when no validation raises: either what it
    started with, and then no answer qualified; or the chain of an answer
    that qualified and reported a length that no other qualifying answer
    exceeds. *)
Lemma resolve_loop_result (rs : list response) :
  forall (n : Z) (nc res : option (list value)),
    resolve_loop rs n nc = Ok res ->
    (res = nc /\ forall r, In r rs -> ~ qualifies n r) \/
    (exists r, In r rs /\ qualifies n r /\ res = Some (json_chain r) /\
               forall r', In r' rs -> qualifies n r' ->
                          json_length r' <= json_length r).
Proof.
  induction rs as [|r rs IH]; intros n nc res H.
  - left. injection H as <-. split; [reflexivity | intros r []].
  - cbn [resolve_loop] in H.
    assert (Hskip :
      ~ qualifies n r -> resolve_loop rs n nc = Ok res ->
      (res = nc /\ forall r', In r' (r :: rs) -> ~ qualifies n r') \/
      (exists r0, In r0 (r :: rs) /\ qualifies n r0 /\
                  res = Some (json_chain r0) /\
                  forall r', In r' (r :: rs) -> qualifies n r' ->
                             json_length r' <= json_length r0)).
    { intros Hnq Hrest. destruct (IH _ _ _ Hrest) as [[-> Hno]|(r0 & Hin & Hq & -> & Hmax)].
      - left. split; [reflexivity|]. intros r' [<-|Hin']; auto.
      - right. exists r0. split; [now right|]. split; [exact Hq|].
        split; [reflexivity|]. intros r' [<-|Hin'] Hq'; [now elim Hnq | auto]. }
    destruct (status_code r =? 200) eqn:Hs;
      [|apply Hskip; [intros (Hc & _); apply Z.eqb_neq in Hs; auto | exact H]].
    apply Z.eqb_eq in Hs.
    destruct (json_length r >? n) eqn:Hl;
      [|apply Hskip; [intros (_ & Hc & _); rewrite Z.gtb_ltb in Hl;
                      apply Z.ltb_ge in Hl; lia | exact H]].
    rewrite Z.gtb_ltb in Hl. apply Z.ltb_lt in Hl.
    destruct (valid_chain (json_chain r)) as [[|]|e] eqn:Hv; cbn [bind] in H;
      [| apply Hskip; [intros (_ & _ & Hc); congruence | exact H]
       | discriminate].
    assert (Hq : qualifies n r) by (repeat split; assumption).
    right.
    destruct (IH _ _ _ H) as [[-> Hno]|(r0 & Hin & Hq0 & -> & Hmax)].
    + exists r. split; [now left|]. split; [exact Hq|].
      split; [reflexivity|].
      intros r' [<-|Hin'] (Hs' & Hl' & Hv'); [lia|].
      destruct (Z_le_gt_dec (json_length r') (json_length r)) as [Hle|Hgt];
        [exact Hle|].
      elim (Hno r' Hin'). repeat split; [exact Hs' | lia | exact Hv'].
    + destruct Hq0 as (Hs0 & Hl0 & Hv0).
      exists r0. split; [now right|].
      split; [repeat split; [exact Hs0 | lia | exact Hv0]|].
      split; [reflexivity|].
      intros r' [<-|Hin'] (Hs' & Hl' & Hv'); [lia|].
      destruct (Z_le_gt_dec (json_length r') (json_length r)) as [Hle|Hgt];
        [lia|].
      apply Hmax; [exact Hin'|]. repeat split; [exact Hs' | lia | exact Hv'].
Qed.

(** When [valid_chain] raises on no answer, the loop ends normally. *)
Lemma resolve_loop_total (rs : list response) :
  Forall (fun r => status_code r = 200 ->
                   exists v : bool, valid_chain (json_chain r) = Ok v) rs ->
  forall (n : Z) (nc : option (list value)),
  exists res, resolve_loop rs n nc = Ok res.
Proof.
  induction 1 as [|r rs Hr _ IH]; intros n nc; [now eexists|].
  cbn [resolve_loop].
  destruct (status_code r =? 200) eqn:Hs; [|apply IH].
  apply Z.eqb_eq in Hs. destruct (Hr Hs) as [v Hv].
  destruct (json_length r >? n); [|apply IH].
  rewrite Hv. cbn [bind]. destruct v; apply IH.
Qed.

Lemma qualifies_nonempty (n : Z) (r : response) :
  qualifies n r -> exists b c, json_chain r = b :: c.
Proof.
  intros (_ & _ & Hv). destruct (json_chain r) as [|b c]; [discriminate|].
  now exists b, c.
Qed.

(** The outcomes of a call, read off the loop. *)
Lemma resolve_conflicts_cases (rs : list response) (self : Blockchain) :
  let n := Z.of_nat (length (chain self)) in
  (exists e, resolve_conflicts rs self = (Raise e, self)) \/
  (resolve_conflicts rs self = (Ok false, self) /\
   forall r, In r rs -> ~ qualifies n r) \/
  (exists r, In r rs /\ qualifies n r /\
             (forall r', In r' rs -> qualifies n r' ->
                         json_length r' <= json_length r) /\
             resolve_conflicts rs self
             = (Ok true,
                {| chain := json_chain r;
                   current_transactions := current_transactions self;
                   nodes := nodes self |})).
Proof.
  intros n. unfold resolve_conflicts. fold n.
  destruct (resolve_loop rs n None) as [res|e] eqn:Hloop;
    [|left; now exists e].
  right.
  destruct (resolve_loop_result _ _ _ _ Hloop)
    as [[-> Hno]|(r & Hin & Hq & -> & Hmax)].
  - left. now split.
  - right. exists r. split; [exact Hin|]. split; [exact Hq|].
    split; [exact Hmax|].
    destruct (qualifies_nonempty _ _ Hq) as (b & c & ->). reflexivity.
Qed.

(** *** The loop, part by part *)

(** When the loop comes through the answers [before], it goes on with a
    [max_length] that lies below exactly the bounds that [n] and the
    reported length of every qualifying answer of [before] lie below. *)
Lemma resolve_loop_app (before : list response) :
  forall (n : Z) (nc res : option (list value)),
    resolve_loop before n nc = Ok res ->
    exists m : Z,
      (forall z, m < z <->
                 n < z /\
                 forall r, In r before -> qualifies n r -> json_length r < z) /\
      forall rest,
        resolve_loop (before ++ rest) n nc = resolve_loop rest m res.
Proof.
  induction before as [|r before IH]; intros n nc res H.
  - injection H as <-. exists n. split; [|reflexivity].
    intros z. split; [intros Hz; split; [exact Hz | intros r []] | tauto].
  - cbn [resolve_loop] in H.
    assert (Hskip :
      ~ qualifies n r ->
      (forall rest, resolve_loop ((r :: before) ++ rest) n nc
                    = resolve_loop (before ++ rest) n nc) ->
      resolve_loop before n nc = Ok res ->
      exists m : Z,
        (forall z, m < z <->
                   n < z /\
                   forall r', In r' (r :: before) -> qualifies n r' ->
                              json_length r' < z) /\
        forall rest,
          resolve_loop ((r :: before) ++ rest) n nc = resolve_loop rest m res).
    { intros Hnq Hstep Hrest. destruct (IH _ _ _ Hrest) as (m & Hm & Happ).
      exists m. split.
      - intros z. rewrite Hm. split; intros [Hz Hall]; (split; [exact Hz|]).
        + intros r' [<-|Hin] Hq; [now elim Hnq | now apply Hall].
        + intros r' Hin. apply Hall. now right.
      - intros rest. rewrite Hstep. apply Happ. }
    destruct (status_code r =? 200) eqn:Hs.
    2:{ apply Hskip; [| |exact H].
        - intros (Hc & _). apply Z.eqb_neq in Hs. now elim Hs.
        - intros rest. cbn [app resolve_loop]. now rewrite Hs. }
    destruct (json_length r >? n) eqn:Hl.
    2:{ apply Hskip; [| |exact H].
        - intros (_ & Hc & _). rewrite Z.gtb_ltb in Hl.
          apply Z.ltb_ge in Hl. lia.
        - intros rest. cbn [app resolve_loop]. now rewrite Hs, Hl. }
    destruct (valid_chain (json_chain r)) as [[|]|e] eqn:Hv; cbn [bind] in H;
      [| |discriminate].
    2:{ apply Hskip; [| |exact H].
        - intros (_ & _ & Hc). congruence.
        - intros rest. cbn [app resolve_loop]. now rewrite Hs, Hl, Hv. }
    apply Z.eqb_eq in Hs. rewrite Z.gtb_ltb in Hl. apply Z.ltb_lt in Hl.
    destruct (IH _ _ _ H) as (m & Hm & Happ). exists m. split.
    + intros z. rewrite Hm. split.
      * intros [Hz Hall]. split; [lia|].
        intros r' [<-|Hin] (Hs' & Hl' & Hv'); [exact Hz|].
        destruct (Z_lt_le_dec (json_length r) (json_length r')) as [Hlt|Hle];
          [|lia].
        apply Hall; [exact Hin|]. now repeat split.
      * intros [Hz Hall]. split.
        -- apply Hall; [now left | now repeat split].
        -- intros r' Hin (Hs' & Hl' & Hv'). apply Hall; [now right|].
           repeat split; [exact Hs' | lia | exact Hv'].
    + intros rest. cbn [app resolve_loop].
      apply Z.eqb_eq in Hs. apply Z.ltb_lt in Hl. rewrite <- Z.gtb_ltb in Hl.
      rewrite Hs, Hl, Hv. cbn [bind]. apply Happ.
Qed.

(** An exception ends the loop. *)
Lemma resolve_loop_app_raise (before rest : list response) (e : exn) :
  forall (n : Z) (nc : option (list value)),
    resolve_loop before n nc = Raise e ->
    resolve_loop (before ++ rest) n nc = Raise e.
Proof.
  induction before as [|r before IH]; intros n nc H; [discriminate|].
  cbn [app resolve_loop] in *.
  destruct (status_code r =? 200); [|now apply IH].
  destruct (json_length r >? n); [|now apply IH].
  destruct (valid_chain (json_chain r)) as [[|]|e']; cbn [bind] in *;
    [now apply IH | now apply IH | exact H].
Qed.

(** [valid_chain] is applied to an answer that is [checked]. *)
Lemma resolve_loop_checked_raises (before after : list response)
    (r : response) (n : Z) (nc res : option (list value)) (e : exn) :
  resolve_loop before n nc = Ok res ->
  checked n before r ->
  valid_chain (json_chain r) = Raise e ->
  resolve_loop (before ++ r :: after) n nc = Raise e.
Proof.
  intros Hb (Hs & Hl & Hall) Hv.
  destruct (resolve_loop_app _ _ _ _ Hb) as (m & Hm & ->).
  cbn [resolve_loop]. rewrite Hs. cbn [Z.eqb Pos.eqb].
  replace (json_length r >? m) with true
    by (symmetry; apply Z.gtb_lt, Hm; now split).
  now rewrite Hv.
Qed.

Lemma resolve_loop_checked_returns (before after : list response)
    (r : response) (n : Z) (nc res : option (list value)) :
  resolve_loop (before ++ r :: after) n nc = Ok res ->
  checked n before r ->
  exists v : bool, valid_chain (json_chain r) = Ok v.
Proof.
  intros H Hc.
  destruct (resolve_loop before n nc) as [res0|e0] eqn:Hb.
  - destruct (valid_chain (json_chain r)) as [v|e] eqn:Hv; [now exists v|].
    rewrite (resolve_loop_checked_raises _ _ _ _ _ _ _ Hb Hc Hv) in H.
    discriminate H.
  - rewrite (resolve_loop_app_raise _ _ _ _ _ Hb) in H. discriminate H.
Qed.

(** The loop ends normally when [valid_chain] returns a bool on every
    answer it is applied to. *)
Lemma resolve_loop_returns (n : Z) (nc : option (list value))
    (rs : list response) :
  (forall b1 r1 b2,
     rs = b1 ++ r1 :: b2 -> checked n b1 r1 ->
     exists v : bool, valid_chain (json_chain r1) = Ok v) ->
  exists res, resolve_loop rs n nc = Ok res.
Proof.
  induction rs as [|x rs IH] using rev_ind; intros H; [now eexists|].
  destruct IH as [res0 Hrs].
  { intros b1 r1 b2 -> Hc. apply (H b1 r1 (b2 ++ [x])); [|exact Hc].
    now rewrite <- app_assoc. }
  destruct (valid_chain (json_chain x)) as [v|e] eqn:Hv.
  - destruct (resolve_loop_app _ _ _ _ Hrs) as (m & _ & ->).
    cbn [resolve_loop]. rewrite Hv. cbn [bind].
    destruct (status_code x =? 200), (json_length x >? m), v; now eexists.
  - destruct (resolve_loop_app _ _ _ _ Hrs) as (m & Hm & ->).
    cbn [resolve_loop].
    destruct (status_code x =? 200) eqn:Hs; [|now eexists].
    destruct (json_length x >? m) eqn:Hl; [|now eexists].
    apply Z.eqb_eq in Hs. apply Z.gtb_lt, Hm in Hl.
    destruct (H rs x [] eq_refl) as [v Hv']; [now split|]. congruence.
Qed.

(** The loop raises exactly when [valid_chain] raises on an answer it is
    applied to. *)
Lemma resolve_loop_raises (n : Z) (nc : option (list value))
    (rs : list response) (e : exn) :
  resolve_loop rs n nc = Raise e <-> raises_at n rs e.
Proof.
  split.
  - induction rs as [|x rs IH] using rev_ind; intros H; [discriminate H|].
    destruct (resolve_loop rs n nc) as [res0|e0] eqn:Hrs.
    + exists rs, x, []. split; [reflexivity|].
      destruct (resolve_loop_app _ _ _ _ Hrs) as (m & Hm & Happ).
      rewrite Happ in H. cbn [resolve_loop] in H.
      destruct (status_code x =? 200) eqn:Hs; [|discriminate H].
      destruct (json_length x >? m) eqn:Hl; [|discriminate H].
      apply Z.eqb_eq in Hs. apply Z.gtb_lt, Hm in Hl.
      destruct (valid_chain (json_chain x)) as [[|]|e']; cbn [bind] in H;
        try discriminate H.
      injection H as ->. split; [now split|]. split; [reflexivity|].
      intros b1 r1 b2 -> Hc.
      exact (resolve_loop_checked_returns _ _ _ _ _ _ Hrs Hc).
    + rewrite (resolve_loop_app_raise _ _ _ _ _ Hrs) in H. injection H as ->.
      destruct (IH eq_refl) as (before & r & after & -> & Hc & Hv & Hfirst).
      exists before, r, (after ++ [x]).
      split; [now rewrite <- app_assoc|].
      split; [exact Hc|]. split; [exact Hv | exact Hfirst].
  - intros (before & r & after & -> & Hc & Hv & Hfirst).
    destruct (resolve_loop_returns n nc before Hfirst) as [res Hb].
    exact (resolve_loop_checked_raises _ _ _ _ _ _ _ Hb Hc Hv).
Qed.


Lemma answers_validate :
  Forall (fun r => status_code r = 200 ->
                   exists v : bool, valid_chain (json_chain r) = Ok v) answers.
Proof.
  repeat constructor; cbn [status_code json_chain]; intros H;
    try discriminate H; eexists; vm_compute; reflexivity.
Qed.



(** The same answers, run: the tampered chain is passed over although it
    reports the greatest length, and the valid one is taken. *)
Example resolve_conflicts_run :
  resolve_conflicts answers (init "1.0")
  = (Ok true,
     {| chain := [peer_genesis; peer_block];
        current_transactions := [];
        nodes := [] |}) /\
  resolve_conflicts [mkResponse 200 3 [peer_genesis; tampered_block; peer_block]]
                    (init "1.0")
  = (Ok false, init "1.0").
Proof. vm_compute. split; reflexivity. Qed.

(** X19.  What [resolve_conflicts] keeps.  It never touches the pending
    transactions nor the registered nodes.  When no answer with status
    200 reports a length above the length of the local chain it returns
    False and leaves the chain as it is.  When no answer with status 200
    reports more blocks than it carries, the call leaves the local chain
    at least as long as it was. *)
Theorem resolve_conflicts_never_shortens (rs : list response)
    (self : Blockchain) :
  current_transactions (snd (resolve_conflicts rs self))
  = current_transactions self /\
  nodes (snd (resolve_conflicts rs self)) = nodes self /\
  ((forall r, In r rs -> status_code r = 200 ->
              json_length r <= Z.of_nat (length (chain self))) ->
   resolve_conflicts rs self = (Ok false, self)) /\
  ((forall r, In r rs -> status_code r = 200 ->
              json_length r <= Z.of_nat (length (json_chain r))) ->
   (length (chain self)
    <= length (chain (snd (resolve_conflicts rs self))))%nat).
Proof.
  pose proof (resolve_conflicts_cases rs self) as Hcases. cbv zeta in Hcases.
  split; [|split; [|split]].
  - destruct Hcases as [[e ->]|[[-> _]|(r & _ & _ & _ & ->)]]; reflexivity.
  - destruct Hcases as [[e ->]|[[-> _]|(r & _ & _ & _ & ->)]]; reflexivity.
  - intros H. unfold resolve_conflicts.
    now rewrite resolve_loop_none_longer.
  - intros H.
    destruct Hcases as [[e ->]|[[-> _]|(r & Hin & (Hs & Hl & _) & _ & ->)]];
      cbn [snd chain]; [lia | lia |].
    specialize (H r Hin Hs). lia.
Qed.

(** C2.  The docstring of [resolve_conflicts] promises the longest chain
    in the network, and its comment says that it only looks for chains
    longer than the local one; but the length it compares is the one the
    answer reports, never [len(chain)].  On the ledger [sealed], of two
    blocks, the answer [overstated] reports three blocks and carries one:
    the call returns True and the chain of one block replaces the chain
    of two. *)
Lemma resolve_conflicts_shortens :
  length (chain sealed) = 2%nat /\
  json_length overstated = 3 /\
  length (json_chain overstated) = 1%nat /\
  fst (resolve_conflicts [overstated] sealed) = Ok true /\
  chain (snd (resolve_conflicts [overstated] sealed)) = [peer_genesis] /\
  length (chain (snd (resolve_conflicts [overstated] sealed))) = 1%nat.
Proof. vm_compute. repeat split; reflexivity. Qed.

(** ** The [/mine] route *)

(** What a run of the route does to the chain: nothing when it raises;
    otherwise it appends one block, whose proof is valid against the proof
    of the block before it and whose [previous_hash] is that block. *)
Lemma mine_chain (fuel : nat) (node_identifier time : string)
    (self self' : Blockchain) (r : result value) :
  mine fuel node_identifier time self = Some (r, self') ->
  (exists e, r = Raise e /\ chain self' = chain self) \/
  (exists (lb block : value) (a p : Z),
     last_block self = Ok lb /\
     chain self' = chain self ++ [block] /\
     subscript block "previous_hash" = Ok lb /\
     subscript lb "proof" = Ok (VInt a) /\
     subscript block "proof" = Ok (VInt p) /\
     valid_proof a p = true).
Proof.
  unfold mine. intros H.
  destruct (last_block self) as [lb|e] eqn:Hlb; cbn [bind] in H;
    [|injection H as <- <-; left; now exists e].
  destruct (subscript lb "proof") as [lp|e] eqn:Hlp; cbn [bind] in H;
    [|injection H as <- <-; left; now exists e].
  destruct (as_int lp) as [a|e] eqn:Ha; cbn [bind] in H;
    [|injection H as <- <-; left; now exists e].
  apply as_int_ok in Ha. subst lp.
  destruct (proof_of_work fuel a) as [p|] eqn:Hpow; [|discriminate].
  destruct (proof_of_work_from_sound _ _ _ _ Hpow) as (_ & Hv & _).
  destruct (new_transaction (VStr "0") (VStr node_identifier) (VInt 1) self)
    as [r1 self1] eqn:H1.
  assert (Hc1 : chain self1 = chain self).
  { replace self1
      with (snd (new_transaction (VStr "0") (VStr node_identifier) (VInt 1) self))
      by now rewrite H1.
    reflexivity. }
  destruct r1 as [v|e]; [|injection H as <- <-; left; now exists e].
  assert (Ht : truthy lb = true).
  { destruct lb as [| | | | | |d]; try discriminate Hlp.
    destruct d; [discriminate Hlp | reflexivity]. }
  assert (Hnb : (if truthy lb then Ok lb
                 else b0 <- last_item (chain self1) ;; Ok (VStr (hash b0)))
                = Ok lb) by now rewrite Ht.
  rewrite (new_block_ok _ _ _ _ _ Hnb) in H. cbv zeta in H.
  injection H as _ <-. cbn [chain]. rewrite Hc1.
  right. eexists lb, _, a, p. split; [reflexivity|]. split; [reflexivity|].
  split; [reflexivity|]. split; [exact Hlp|]. split; [reflexivity | exact Hv].
Qed.

(** The route hands the last block itself to [new_block] where the hash of
    the last block is expected.  A block is a dict that is not empty, so
    it counts as true and is stored as [previous_hash]: the block mined
    does not carry the hash of the one before it, and [valid_chain] does
    not accept the chain that results. *)
Lemma mine_previous_hash_is_block (fuel : nat) (node_identifier time : string)
    (self self' : Blockchain) (body : value) :
  mine fuel node_identifier time self = Some (Ok body, self') ->
  exists lb block : value,
    last_block self = Ok lb /\
    chain self' = chain self ++ [block] /\
    subscript block "previous_hash" = Ok lb /\
    proof_ok lb block /\
    ~ hash_ok lb block /\
    valid_chain (chain self') <> Ok true.
Proof.
  intros H.
  destruct (mine_chain _ _ _ _ _ _ H)
    as [(e & He & _)|(lb & block & a & p & Hlb & Hc & Hph & Ha & Hp & Hv)];
    [discriminate|].
  assert (Hnh : ~ hash_ok lb block).
  { unfold hash_ok. rewrite Hph. intros E. injection E as E.
    rewrite E in Ha. discriminate Ha. }
  exists lb, block. split; [exact Hlb|]. split; [exact Hc|].
  split; [exact Hph|]. split; [now exists a, p|]. split; [exact Hnh|].
  intros Hvc. apply valid_chain_true in Hvc as [_ Hl].
  unfold last_block in Hlb.
  destruct (chain self) as [|x c] eqn:Hcs; [discriminate|].
  rewrite Hc in Hl. apply chained_snoc in Hl as [_ [Hh _]]; [|discriminate].
  cbn [last_item] in Hlb. injection Hlb as <-. exact (Hnh Hh).
Qed.

(** A run of the route.  The ledger [before_mine] has two blocks, the
    second sealed by [new_block] with a valid proof, and [valid_chain]
    accepts its chain; after [mine] has added a third block, with the
    proof 19 that the search finds, it does not. *)
Example mine_run :
  valid_chain (chain before_mine) = Ok true /\
  exists body self',
    mine 20 "node" "3.5" before_mine = Some (Ok body, self') /\
    subscript body "proof" = Ok (VInt 19) /\
    subscript body "previous_hash" = Ok (last (chain before_mine) VNone) /\
    valid_chain (chain self') = Ok false.
Proof.
  split; [vm_compute; reflexivity|].
  destruct (mine 20 "node" "3.5" before_mine) as [[[body|e] self']|] eqn:H;
    vm_compute in H; try discriminate H.
  injection H as <- <-.
  do 2 eexists. split; [reflexivity|].
  vm_compute. repeat split; reflexivity.
Qed.

(** ** The links of the chain *)

(** A block sealed with a valid proof keeps the proofs of the chain
    linked, whatever its [previous_hash]. *)
Lemma worked_block_linked (self : Blockchain) (previous_hash b : value)
    (a p : Z) (time : string) :
  chain self <> [] -> proof_linked (chain self) ->
  last_block self = Ok b ->
  subscript b "proof" = Ok (VInt a) ->
  valid_proof a p = true ->
  let self' := snd (new_block previous_hash (VInt p) time self) in
  chain self' <> [] /\ proof_linked (chain self').
Proof.
  intros Hne Hl Hb Ha Hv.
  unfold last_block in Hb. rewrite (last_item_ok _ Hne) in Hb.
  injection Hb as Hb.
  assert (H : exists ph,
             (if truthy previous_hash then Ok previous_hash
              else b0 <- last_item (chain self) ;; Ok (VStr (hash b0))) = Ok ph).
  { destruct (truthy previous_hash); [now eexists|].
    rewrite (last_item_ok _ Hne). now eexists. }
  destruct H as [ph H].
  rewrite (new_block_ok _ _ _ _ _ H). cbn [snd chain]. split.
  - intros E. now apply app_eq_nil in E as [_ E].
  - apply chained_snoc; [exact Hne|]. split; [exact Hl|].
    rewrite Hb. exists a, p. split; [exact Ha|]. split; [reflexivity | exact Hv].
Qed.

(** Sealed with care, it keeps the hashes linked as well. *)
Lemma careful_block_linked (self : Blockchain) (previous_hash b : value)
    (a p : Z) (time : string) :
  chain self <> [] -> linked (chain self) ->
  last_block self = Ok b ->
  truthy previous_hash = false \/ previous_hash = VStr (hash b) ->
  subscript b "proof" = Ok (VInt a) ->
  valid_proof a p = true ->
  let self' := snd (new_block previous_hash (VInt p) time self) in
  chain self' <> [] /\ linked (chain self').
Proof.
  intros Hne Hl Hb Hph Ha Hv.
  unfold last_block in Hb. rewrite (last_item_ok _ Hne) in Hb.
  injection Hb as Hb.
  assert (H : (if truthy previous_hash then Ok previous_hash
               else b0 <- last_item (chain self) ;; Ok (VStr (hash b0)))
              = Ok (VStr (hash b))).
  { destruct (truthy previous_hash) eqn:Ht.
    - destruct Hph as [Hph | ->]; [rewrite Hph in Ht; discriminate | reflexivity].
    - rewrite (last_item_ok _ Hne), Hb. reflexivity. }
  rewrite (new_block_ok _ _ _ _ _ H). cbn [snd chain]. split.
  - intros E. now apply app_eq_nil in E as [_ E].
  - apply chained_snoc; [exact Hne|]. split; [exact Hl|].
    rewrite Hb. split; [reflexivity|].
    exists a, p. split; [exact Ha|]. split; [reflexivity | exact Hv].
Qed.

(** A chain that [resolve_conflicts] leaves in place of a linked chain is
    linked: it is the old one, or one that [valid_chain] accepted. *)
Lemma resolve_conflicts_linked (rs : list response) (self : Blockchain) :
  chain self <> [] ->
  (linked (chain self) -> linked (chain (snd (resolve_conflicts rs self)))) /\
  (proof_linked (chain self) ->
   proof_linked (chain (snd (resolve_conflicts rs self)))) /\
  chain (snd (resolve_conflicts rs self)) <> [].
Proof.
  intros Hne.
  destruct (resolve_conflicts_cases rs self)
    as [[e ->]|[[-> _]|(r & _ & (_ & _ & Hv) & _ & ->)]];
    cbn [snd chain]; try tauto.
  apply valid_chain_true in Hv as [Hne' Hl].
  split; [intros _; exact Hl|]. split; [|exact Hne'].
  intros _. apply chained_impl with (R := link_ok); [|exact Hl].
  now intros a b [_ H].
Qed.

(** C1, as the code has it.  On a ledger whose blocks were all sealed with
    a proof of work, by [new_block] or by the [/mine] route, every block
    after the first carries a proof that [valid_proof] accepts against the
    proof of the block before it.  When they were all sealed with care,
    by [new_block] with [previous_hash] left out or equal to the hash of
    the last block, every block after the first also carries the hash of
    the block before it as [previous_hash].  A chain adopted from a peer
    has both properties because [valid_chain] accepted it; the chain is
    never empty.  [new_block] itself checks neither property. *)
Theorem chain_links_hold (self : Blockchain) :
  (worked self -> chain self <> [] /\ proof_linked (chain self)) /\
  (careful self -> chain self <> [] /\ linked (chain self)).
Proof.
  split.
  - induction 1 as [time | self s r a _ IH
                   | self ph b a p time _ IH Hb Ha Hv
                   | self self' fuel n time r _ IH Hm
                   | self rs _ IH].
    + split; [discriminate | apply chained_single].
    + exact IH.
    + destruct IH as [Hne Hl].
      now apply worked_block_linked with (b := b) (a := a).
    + destruct IH as [Hne Hl].
      destruct (mine_chain _ _ _ _ _ _ Hm)
        as [(e & _ & ->)|(lb & block & a & p & Hlb & -> & _ & Ha & Hp & Hv)];
        [now split|].
      split; [intros E; now apply app_eq_nil in E as [_ E]|].
      apply chained_snoc; [exact Hne|]. split; [exact Hl|].
      unfold last_block in Hlb. rewrite (last_item_ok _ Hne) in Hlb.
      injection Hlb as ->. now exists a, p.
    + destruct IH as [Hne Hl].
      destruct (resolve_conflicts_linked rs self Hne) as (_ & H & Hne').
      split; [exact Hne' | exact (H Hl)].
  - induction 1 as [time | self s r a _ IH
                   | self ph b a p time _ IH Hb Hph Ha Hv
                   | self rs _ IH].
    + split; [discriminate | apply chained_single].
    + exact IH.
    + destruct IH as [Hne Hl].
      now apply careful_block_linked with (b := b) (a := a).
    + destruct IH as [Hne Hl].
      destruct (resolve_conflicts_linked rs self Hne) as (H & _ & Hne').
      split; [exact Hne' | exact (H Hl)].
Qed.

(** The ledger [sealed], whose second block carries the proof 35293, was
    sealed with care; the ledger that the [/mine] route makes of
    [before_mine] was sealed with a proof of work. *)
Lemma chain_links_hold_witness :
  (careful sealed /\ linked (chain sealed)) /\
  (exists r self',
     mine 20 "node" "3.5" before_mine = Some (r, self') /\
     worked self' /\ proof_linked (chain self')).
Proof.
  split.
  - assert (H : careful sealed).
    { unfold sealed.
      apply careful_block
        with (b := last (chain (init "1.5")) VNone) (a := 100).
      - apply careful_init.
      - reflexivity.
      - now left.
      - reflexivity.
      - vm_compute; reflexivity. }
    split; [exact H | exact (proj2 (proj2 (chain_links_hold sealed) H))].
  - assert (H : worked before_mine).
    { unfold before_mine.
      apply worked_block
        with (b := last (chain (init "1.5")) VNone) (a := 100).
      - apply worked_init.
      - reflexivity.
      - reflexivity.
      - vm_compute; reflexivity. }
    destruct (mine 20 "node" "3.5" before_mine) as [[r self']|] eqn:Hm;
      [|vm_compute in Hm; discriminate Hm].
    exists r, self'. split; [reflexivity|].
    assert (Hw : worked self') by (eapply worked_mine; [exact H | exact Hm]).
    split; [exact Hw | exact (proj2 (proj1 (chain_links_hold self') Hw))].
Defined.

(** C1 as stated fails on the ledger [unproven], that only went through
    [new_block]: the block sealed with the proof 0 follows the genesis
    block, whose proof is 100, and [valid_proof] rejects 0 against 100. *)
Lemma chain_links_counterexample :
  grown unproven /\
  (exists prev block : value,
     nth_error (chain unproven) 0 = Some prev /\
     nth_error (chain unproven) 1 = Some block /\
     subscript prev "proof" = Ok (VInt 100) /\
     subscript block "proof" = Ok (VInt 0) /\
     valid_proof 100 0 = false) /\
  ~ linked (chain unproven).
Proof.
  split; [apply grown_block, grown_init|].
  assert (Hv : valid_proof 100 0 = false) by (vm_compute; reflexivity).
  split.
  - do 2 eexists. repeat split; first [exact Hv | reflexivity].
  - intros Hl.
    destruct (Hl 0%nat _ _ eq_refl eq_refl) as (_ & a & p & Ha & Hp & Hap).
    injection Ha as <-. injection Hp as <-. congruence.
Qed.

(** ** The hash of a block does not depend on the order of its fields *)

(** *** The order on keys *)

Lemma leb_trans (a b c : string) :
  String.leb a b = true -> String.leb b c = true -> String.leb a c = true.
Proof.
  unfold String.leb. intros Hab Hbc.
  destruct (String.compare a b) eqn:Eab; [| |discriminate].
  - apply String.compare_eq_iff in Eab. now subst.
  - destruct (String.compare b c) eqn:Ebc; [| |discriminate].
    + apply String.compare_eq_iff in Ebc. subst. now rewrite Eab.
    + assert (Lac : String_as_OT.lt a c)
        by (transitivity b; [exact Eab | exact Ebc]).
      change (String.compare a c = Lt) in Lac. now rewrite Lac.
Qed.

Lemma leb_false (a b : string) :
  String.leb a b = false -> String.leb b a = true.
Proof.
  intros H. destruct (String.leb_total a b) as [H'|H']; congruence.
Qed.

(** *** Sorting the items *)

Section Sorting.

Context {A : Type}.
Implicit Types (x y : string * A) (l : list (string * A)).

(** Two insertions of items with different keys commute. *)
Lemma insert_comm x y l :
  fst x <> fst y -> insert x (insert y l) = insert y (insert x l).
Proof.
  intros Hxy. induction l as [|z l IH].
  - cbn [insert].
    destruct (String.leb (fst x) (fst y)) eqn:Hle,
             (String.leb (fst y) (fst x)) eqn:Hge; try reflexivity.
    + elim Hxy. now apply String.leb_antisym.
    + apply leb_false in Hle. congruence.
  - cbn [insert].
    destruct (String.leb (fst y) (fst z)) eqn:Hyz,
             (String.leb (fst x) (fst z)) eqn:Hxz; cbn [insert];
      rewrite ?Hyz, ?Hxz.
    + destruct (String.leb (fst x) (fst y)) eqn:Hle,
               (String.leb (fst y) (fst x)) eqn:Hge;
        rewrite ?Hyz, ?Hxz; try reflexivity.
      * elim Hxy. now apply String.leb_antisym.
      * apply leb_false in Hle. congruence.
    + destruct (String.leb (fst x) (fst y)) eqn:Hle; [|reflexivity].
      rewrite (leb_trans _ _ _ Hle Hyz) in Hxz. discriminate.
    + destruct (String.leb (fst y) (fst x)) eqn:Hge; [|reflexivity].
      rewrite (leb_trans _ _ _ Hge Hxz) in Hyz. discriminate.
    + now rewrite IH.
Qed.

(** Items with distinct keys come out in one order, whatever the order
    they went in. *)
Lemma sorted_permutation l1 l2 :
  Permutation l1 l2 -> NoDup (map fst l1) -> sorted l1 = sorted l2.
Proof.
  induction 1 as [|x l1 l2 _ IH|x y l|l1 l2 l3 H12 IH12 H23 IH23]; intros Hnd.
  - reflexivity.
  - cbn [sorted fold_right]. fold (sorted l1) (sorted l2).
    inversion Hnd; subst. now rewrite IH.
  - cbn [sorted fold_right]. fold (sorted l).
    apply insert_comm. inversion Hnd as [|? ? Hin _]; subst.
    intros E. apply Hin. left. now symmetry.
  - rewrite IH12 by exact Hnd. apply IH23.
    eapply Permutation_NoDup; [|exact Hnd]. now apply Permutation_map.
Qed.

End Sorting.

(** Rendering the values and putting the items in order commute: this is
    [dumps] on a dict in the order of the source, that sorts the items
    first and renders them next. *)
Lemma insert_map {A B : Type} (f : A -> B) (x : string * A)
    (l : list (string * A)) :
  map (fun kv => (fst kv, f (snd kv))) (insert x l)
  = insert (fst x, f (snd x)) (map (fun kv => (fst kv, f (snd kv))) l).
Proof.
  induction l as [|h l IH]; [reflexivity|].
  cbn [insert map fst]. destruct (String.leb (fst x) (fst h)).
  - reflexivity.
  - cbn [map]. now rewrite IH.
Qed.

Lemma sorted_map {A B : Type} (f : A -> B) (l : list (string * A)) :
  map (fun kv => (fst kv, f (snd kv))) (sorted l)
  = sorted (map (fun kv => (fst kv, f (snd kv))) l).
Proof.
  induction l as [|x l IH]; [reflexivity|].
  cbn [sorted fold_right map]. fold (sorted l).
  fold (sorted (map (fun kv => (fst kv, f (snd kv))) l)).
  now rewrite insert_map, IH.
Qed.

Lemma dumps_dict (d : list (string * value)) :
  dumps (VDict d)
  = ("{" ++ String.concat ", "
              (map (fun kv => encode_basestring_ascii (fst kv) ++ ": "
                              ++ dumps (snd kv))
                   (sorted d))
         ++ "}")%string.
Proof.
  cbn [dumps]. rewrite <- sorted_map, map_map. reflexivity.
Qed.

(** *** Values with the same content have the same text *)

Lemma same_dumps_items (l1 l2 : list value) :
  Forall2 same l1 l2 ->
  Forall (fun v1 => forall v2, proper v1 -> same v1 v2 -> dumps v1 = dumps v2)
         l1 ->
  Forall proper l1 ->
  map dumps l1 = map dumps l2.
Proof.
  induction 1 as [|x y l1 l2 Hxy _ IH]; intros Hd Hp; [reflexivity|].
  inversion Hd; inversion Hp; subst. cbn [map]. f_equal; auto.
Qed.

Lemma same_dumps_fields (d d2 : list (string * value)) :
  Forall2 (fun kv1 kv2 => fst kv1 = fst kv2 /\ same (snd kv1) (snd kv2)) d d2 ->
  Forall (fun kv => forall v2, proper (snd kv) -> same (snd kv) v2 ->
                               dumps (snd kv) = dumps v2) d ->
  Forall (fun kv => proper (snd kv)) d ->
  map (fun kv => (fst kv, dumps (snd kv))) d
  = map (fun kv => (fst kv, dumps (snd kv))) d2.
Proof.
  induction 1 as [|x y l l' [Hk Hv] _ IH]; intros Hd Hp; [reflexivity|].
  inversion Hd; inversion Hp; subst. cbn [map]. f_equal; auto.
  f_equal; auto.
Qed.

Lemma same_dumps (v1 : value) :
  forall v2 : value, proper v1 -> same v1 v2 -> dumps v1 = dumps v2.
Proof.
  induction v1 as [ | | | | | l1 IH | d1 IH] using value_nested_ind;
    intros v2 Hp Hs; inversion Hs as [| | | | | ? l2 H2 | ? d d2 Hperm H2];
    subst; try reflexivity.
  - (* lists *)
    inversion Hp as [| | | | | ? Hpl |]; subst.
    cbn [dumps]. do 3 f_equal. now apply same_dumps_items.
  - (* dicts *)
    inversion Hp as [| | | | | | ? Hnd Hpd]; subst.
    cbn [dumps]. do 4 f_equal.
    rewrite <- (same_dumps_fields d d2 H2).
    + apply sorted_permutation; [now apply Permutation_map|].
      now rewrite map_map.
    + eapply Permutation_Forall; eassumption.
    + eapply Permutation_Forall; eassumption.
Qed.

(** C8.  [hash] is a function of the content of the block: two blocks with
    the same index, timestamp, transactions, proof and previous hash have
    the same hash, in whatever order their fields (and the fields of the
    transactions inside) were inserted. *)
Theorem hash_order_independent (b1 b2 : value) :
  proper b1 -> same b1 b2 -> hash b1 = hash b2.
Proof.
  intros Hp Hs. apply hash_of_text. now apply same_dumps.
Qed.

Lemma block_a_proper : proper block_a.
Proof. unfold block_a. properly. Qed.

Lemma block_a_same_b : same block_a block_b.
Proof.
  apply same_dict
    with (d := [ ("previous_hash", VStr "24a5"); ("proof", VInt 35293);
                 ("transactions",
                  VList [VDict [ ("sender", VStr "0");
                                 ("recipient", VStr "node");
                                 ("amount", VInt 1) ]]);
                 ("timestamp", VFloat "2.5"); ("index", VInt 2) ]%string).
  - permute.
  - same_items.
    apply same_dict
      with (d := [ ("amount", VInt 1); ("sender", VStr "0");
                   ("recipient", VStr "node") ]%string).
    + permute.
    + same_items.
Qed.

(** [block_a] and [block_b] hold the same fields in two orders. *)
Lemma hash_order_independent_witness :
  proper block_a /\ same block_a block_b /\ hash block_a = hash block_b.
Proof.
  split; [exact block_a_proper|]. split; [exact block_a_same_b|].
  exact (hash_order_independent block_a block_b block_a_proper block_a_same_b).
Defined.

(** The hash of both, computed. *)
Example hash_block_a_b :
  dumps block_a = dumps block_b /\
  hash block_a
  = "ab9a9c99764ef7c0d3cf60392d612b574d51303c27b9d278290ac2a8cdbb78c3"%string.
Proof. vm_compute. split; reflexivity. Qed.

(** * Further properties *)

(** ** What a run of [/mine] leaves *)

Lemma new_block_chain (previous_hash proof : value) (time : string)
    (self : Blockchain) :
  chain (snd (new_block previous_hash proof time self)) = chain self \/
  exists block,
    chain (snd (new_block previous_hash proof time self))
    = chain self ++ [block] /\
    subscript block "index" = Ok (VInt (Z.of_nat (length (chain self)) + 1)).
Proof.
  unfold new_block.
  destruct (if truthy previous_hash then Ok previous_hash
            else b <- last_item (chain self) ;; Ok (VStr (hash b)))
    as [ph|e]; cbn [snd chain]; [|now left].
  right. eexists. split; reflexivity.
Qed.

(** The outcome of a run in full: it raises and leaves the chain, with or
    without the reward in the pool; or it seals the pending transactions
    and the reward in one block. *)
Lemma mine_outcome (fuel : nat) (node_identifier time : string)
    (self self' : Blockchain) (r : result value) :
  mine fuel node_identifier time self = Some (r, self') ->
  (exists e, r = Raise e /\ chain self' = chain self /\
             nodes self' = nodes self /\
             (current_transactions self' = current_transactions self \/
              current_transactions self'
              = current_transactions self ++ [reward node_identifier])) \/
  (exists (lb : value) (a p : Z),
     last_block self = Ok lb /\
     subscript lb "proof" = Ok (VInt a) /\
     proof_of_work fuel a = Some p /\
     let index := VInt (Z.of_nat (length (chain self)) + 1) in
     let transactions :=
       VList (current_transactions self ++ [reward node_identifier]) in
     self' = {| chain :=
                  chain self
                  ++ [VDict [ ("index", index); ("timestamp", VFloat time);
                              ("transactions", transactions);
                              ("proof", VInt p);
                              ("previous_hash", lb) ]%string];
                current_transactions := [];
                nodes := nodes self |} /\
     r = Ok (VDict [ ("message", VStr "New Block Forged");
                     ("index", index); ("transactions", transactions);
                     ("proof", VInt p); ("previous_hash", lb) ]%string)).
Proof.
  unfold mine. intros H.
  destruct (last_block self) as [lb|e] eqn:Hlb; cbn [bind] in H;
    [|injection H as <- <-; left; exists e; auto].
  destruct (subscript lb "proof") as [lp|e] eqn:Hlp; cbn [bind] in H;
    [|injection H as <- <-; left; exists e; auto].
  destruct (as_int lp) as [a|e] eqn:Ha; cbn [bind] in H;
    [|injection H as <- <-; left; exists e; auto].
  apply as_int_ok in Ha. subst lp.
  destruct (proof_of_work fuel a) as [p|] eqn:Hpow; [|discriminate].
  unfold new_transaction in H at 1.
  match type of H with
  | (match ?r1 with Ok _ => _ | Raise _ => _ end) = _ =>
      destruct r1 as [v|e]
  end;
    [|injection H as <- <-; left; exists e; cbn; auto].
  assert (Ht : truthy lb = true).
  { destruct lb as [| | | | | |d]; try discriminate Hlp.
    destruct d; [discriminate Hlp | reflexivity]. }
  unfold new_block in H. rewrite Ht in H. cbn in H.
  injection H as <- <-.
  right. exists lb, a, p. repeat split; assumption.
Qed.

Lemma chained_app_l (R : value -> value -> Prop) (c more : list value) :
  chained R (c ++ more) -> chained R c.
Proof.
  intros H i prev block H1 H2. apply (H i).
  - rewrite nth_error_app1; [exact H1 | apply nth_error_Some; congruence].
  - rewrite nth_error_app1; [exact H2 | apply nth_error_Some; congruence].
Qed.

(** A node's own calls only add blocks at the end of its chain. *)
Lemma grows_chain (self self' : Blockchain) :
  grows self self' -> exists more, chain self' = chain self ++ more.
Proof.
  induction 1 as [| self' s r a _ IH | self' ph p t _ IH
                 | self' self'' fuel n t r _ IH Hm].
  - exists []. now rewrite app_nil_r.
  - exact IH.
  - destruct IH as [more IH].
    destruct (new_block_chain ph p t self') as [->|(block & -> & _)].
    + now exists more.
    + exists (more ++ [block]). now rewrite IH, app_assoc.
  - destruct IH as [more IH].
    destruct (mine_chain _ _ _ _ _ _ Hm)
      as [(e & _ & ->)|(lb & block & a & p & _ & -> & _)].
    + now exists more.
    + exists (more ++ [block]). now rewrite IH, app_assoc.
Qed.

(** X1.  Once the [/mine] route has added a block, [valid_chain] never
    accepts the chain of the node again, whatever the node submits, seals
    and mines afterwards: the block mined carries the block before it, not
    its hash.  A node that is given this chain by a peer keeps the chain
    it has. *)
Theorem mined_chain_never_valid (fuel : nat) (node_identifier time : string)
    (self mined later : Blockchain) (body : value) :
  mine fuel node_identifier time self = Some (Ok body, mined) ->
  grows mined later ->
  valid_chain (chain later) <> Ok true /\
  forall (other : Blockchain) (len : Z),
    fst (resolve_conflicts [mkResponse 200 len (chain later)] other)
    <> Ok true /\
    snd (resolve_conflicts [mkResponse 200 len (chain later)] other) = other.
Proof.
  intros Hm Hg.
  assert (Hnv : valid_chain (chain later) <> Ok true).
  { destruct (mine_previous_hash_is_block _ _ _ _ _ _ Hm)
      as (lb & block & Hlb & Hc & _ & _ & Hnh & _).
    destruct (grows_chain _ _ Hg) as [more Hmore].
    intros Hv. apply valid_chain_true in Hv as [_ Hl].
    rewrite Hmore, Hc in Hl. apply chained_app_l in Hl.
    unfold last_block in Hlb.
    destruct (chain self) as [|x c]; [discriminate|].
    apply chained_snoc in Hl as [_ [Hh _]]; [|discriminate].
    cbn [last_item] in Hlb. injection Hlb as <-. exact (Hnh Hh). }
  split; [exact Hnv|]. intros other len.
  destruct (resolve_conflicts_cases [mkResponse 200 len (chain later)] other)
    as [[e ->]|[[-> _]|(r & [<-|[]] & (_ & _ & Hv) & _)]];
    cbn [fst snd]; try (split; [discriminate | reflexivity]).
  now elim Hnv.
Qed.

(** The run of [mine_run]: [before_mine] had a chain that [valid_chain]
    accepts. *)
Lemma mined_chain_never_valid_witness :
  exists body mined,
    mine 20 "node" "3.5" before_mine = Some (Ok body, mined) /\
    grows mined mined /\
    valid_chain (chain mined) <> Ok true.
Proof.
  destruct (mine 20 "node" "3.5" before_mine) as [[[body|e] mined]|] eqn:Hm;
    [| vm_compute in Hm; discriminate Hm | vm_compute in Hm; discriminate Hm].
  exists body, mined. split; [reflexivity|].
  split; [apply grows_refl|].
  exact (proj1 (mined_chain_never_valid 20 "node" "3.5" before_mine mined mined
                  body Hm (grows_refl mined))).
Defined.

(** X2.  When the last block has an int proof and an int index and the
    search finds a proof, the route seals one block: its index is the
    chain length plus 1, its transactions are the pending ones followed by
    the reward of the node, its proof is the least valid proof against the
    proof of the last block.  The pool is left empty, and the body of the
    answer shows the index, the transactions, the proof and the
    [previous_hash] of the block. *)
Theorem mine_seals_pending_and_reward (fuel : nat)
    (node_identifier time : string) (self : Blockchain)
    (lb : value) (a i p : Z) :
  last_block self = Ok lb ->
  subscript lb "proof" = Ok (VInt a) ->
  subscript lb "index" = Ok (VInt i) ->
  proof_of_work fuel a = Some p ->
  let index := VInt (Z.of_nat (length (chain self)) + 1) in
  let transactions :=
    VList (current_transactions self ++ [reward node_identifier]) in
  mine fuel node_identifier time self
  = Some (Ok (VDict [ ("message", VStr "New Block Forged");
                      ("index", index); ("transactions", transactions);
                      ("proof", VInt p); ("previous_hash", lb) ]%string),
          {| chain :=
               chain self
               ++ [VDict [ ("index", index); ("timestamp", VFloat time);
                           ("transactions", transactions);
                           ("proof", VInt p);
                           ("previous_hash", lb) ]%string];
             current_transactions := [];
             nodes := nodes self |}) /\
  valid_proof a p = true /\
  forall q : Z, 0 <= q < p -> valid_proof a q = false.
Proof.
  intros Hlb Hlp Hi Hpow index transactions.
  destruct (proof_of_work_from_sound _ _ _ _ Hpow) as (_ & Hv & Hmin).
  split; [|split; [exact Hv | exact Hmin]].
  assert (Ht : truthy lb = true).
  { destruct lb as [| | | | | |d]; try discriminate Hlp.
    destruct d; [discriminate Hlp | reflexivity]. }
  unfold mine. rewrite Hlb. cbn [bind]. rewrite Hlp. cbn [bind as_int].
  rewrite Hpow.
  unfold new_transaction, last_block in *. cbn [chain].
  rewrite Hlb. cbn [bind]. rewrite Hi. cbn [bind plus_one].
  unfold new_block. rewrite Ht. reflexivity.
Qed.

(** On [before_mine], with one transaction pending, the route seals that
    transaction and the reward in block 3 with the proof 19. *)
Lemma mine_seals_pending_and_reward_witness :
  let self := snd (new_transaction (VStr "alice") (VStr "bob") (VInt 5)
                     before_mine) in
  exists body self',
    mine 20 "node" "3.5" self = Some (Ok body, self') /\
    subscript body "index" = Ok (VInt 3) /\
    subscript body "transactions"
    = Ok (VList [ transaction (VStr "alice") (VStr "bob") (VInt 5);
                  reward "node" ]) /\
    subscript body "proof" = Ok (VInt 19) /\
    current_transactions self' = [].
Proof.
  intros self.
  assert (Hpow : proof_of_work 20 18156495 = Some 19)
    by (vm_compute; reflexivity).
  destruct (mine_seals_pending_and_reward 20 "node" "3.5" self
              (last (chain before_mine) VNone) 18156495 2 19
              eq_refl eq_refl eq_refl Hpow)
    as (Hm & _).
  do 2 eexists. split; [exact Hm|]. repeat split; reflexivity.
Defined.

(** ** A last block without index *)

(** X3.  [valid_chain] never reads the index of a block, and both
    [new_transaction] and the [/mine] route append to the pool before they
    read the index of the last block.  On a ledger whose last block has no
    usable index, each call to [new_transaction] raises and still leaves
    its transaction in the pool; each run of [/mine] whose search ends
    raises and leaves the reward in the pool, without sealing a block. *)
Theorem missing_index_grows_pool (self : Blockchain) (lb : value) (e : exn) :
  last_block self = Ok lb ->
  subscript lb "index" = Raise e ->
  (forall sender recipient amount : value,
     new_transaction sender recipient amount self
     = (Raise e,
        {| chain := chain self;
           current_transactions :=
             current_transactions self ++ [transaction sender recipient amount];
           nodes := nodes self |})) /\
  (forall (fuel : nat) (node_identifier time : string) (a p : Z),
     subscript lb "proof" = Ok (VInt a) ->
     proof_of_work fuel a = Some p ->
     mine fuel node_identifier time self
     = Some (Raise e,
             {| chain := chain self;
                current_transactions :=
                  current_transactions self ++ [reward node_identifier];
                nodes := nodes self |})).
Proof.
  intros Hlb Hi. split.
  - intros s r a. unfold new_transaction, last_block in *. cbn [chain].
    now rewrite Hlb; cbn [bind]; rewrite Hi.
  - intros fuel n t a p Hlp Hpow.
    unfold mine. rewrite Hlb. cbn [bind]. rewrite Hlp. cbn [bind as_int].
    rewrite Hpow.
    unfold new_transaction, last_block in *. cbn [chain].
    rewrite Hlb. cbn [bind]. rewrite Hi. reflexivity.
Qed.

(** The ledger [bare] took, from a peer, a chain of one block that has a
    proof and no index: [resolve_conflicts] adopted it. *)
Lemma missing_index_grows_pool_witness :
  chain bare = [bare_block] /\
  new_transaction (VStr "alice") (VStr "bob") (VInt 5) bare
  = (Raise (KeyError "index"),
     {| chain := chain bare;
        current_transactions :=
          current_transactions bare
          ++ [transaction (VStr "alice") (VStr "bob") (VInt 5)];
        nodes := nodes bare |}) /\
  mine 3 "node" "3.5" bare
  = Some (Raise (KeyError "index"),
          {| chain := chain bare;
             current_transactions :=
               current_transactions bare ++ [reward "node"];
             nodes := nodes bare |}).
Proof.
  destruct (missing_index_grows_pool bare bare_block (KeyError "index")
              eq_refl eq_refl)
    as [Htx Hmine].
  split; [reflexivity|]. split; [apply Htx|].
  apply (Hmine 3%nat "node"%string "3.5"%string 30916 2); [reflexivity|].
  vm_compute. reflexivity.
Defined.

(** ** The indices of the blocks *)

Lemma indexed_snoc (c : list value) (b : value) :
  indexed c ->
  subscript b "index" = Ok (VInt (Z.of_nat (length c) + 1)) ->
  indexed (c ++ [b]).
Proof.
  intros Hc Hb i x Hx.
  destruct (Nat.lt_ge_cases i (length c)) as [Hlt|Hge].
  - rewrite nth_error_app1 in Hx by exact Hlt. now apply Hc.
  - rewrite nth_error_app2 in Hx by exact Hge.
    destruct (i - length c)%nat as [|k] eqn:Hk.
    + injection Hx as <-. replace i with (length c) by lia. exact Hb.
    + destruct k; discriminate.
Qed.

(** X4.  On a ledger that the node grew by itself (blocks sealed by
    [new_block] or mined, never a chain taken from a peer) every block
    carries its position in the chain, counted from 1, as its index: the
    indices are 1, 2, 3, ... without gap or repetition. *)
Theorem grown_chain_indexed (self : Blockchain) :
  grown self -> indexed (chain self).
Proof.
  induction 1 as [time | self s r a _ IH | self ph p time _ IH
                 | self self' fuel n time r _ IH Hm].
  - intros [|[|i]] b H; try discriminate. now injection H as <-.
  - exact IH.
  - destruct (new_block_chain ph p time self) as [->|(block & -> & Hi)];
      [exact IH | now apply indexed_snoc].
  - destruct (mine_outcome _ _ _ _ _ _ Hm)
      as [(e & _ & -> & _)|(lb & a & p & _ & _ & _ & -> & _)];
      [exact IH|].
    cbn [chain]. now apply indexed_snoc.
Qed.

Lemma grown_chain_indexed_witness :
  grown sealed /\ indexed (chain sealed).
Proof.
  assert (H : grown sealed) by (apply grown_block, grown_init).
  split; [exact H | exact (grown_chain_indexed sealed H)].
Defined.

(** ** [POST /transactions/new] *)

(** The route leaves the ledger as it is, or as [new_transaction] does for
    the three values of the body. *)
Lemma route_new_transaction_state (values : value) (self : Blockchain) :
  snd (App.new_transaction values self) = self \/
  exists s r a : value,
    subscript values "sender" = Ok s /\
    subscript values "recipient" = Ok r /\
    subscript values "amount" = Ok a /\
    snd (App.new_transaction values self) = snd (new_transaction s r a self).
Proof.
  unfold App.new_transaction.
  destruct (App.all_in values ["sender"; "recipient"; "amount"]%string)
    as [[|]|e]; [| now left | now left].
  destruct (subscript values "sender") as [s|e]; cbn [bind]; [|now left].
  destruct (subscript values "recipient") as [r|e]; cbn [bind]; [|now left].
  destruct (subscript values "amount") as [a|e]; cbn [bind]; [|now left].
  right. exists s, r, a. repeat split.
Qed.

(** X5.  A body that is a JSON object without one of the keys sender,
    recipient and amount is answered with Missing values and the status
    400, and the ledger is left as it was. *)
Theorem route_rejects_missing_values (d : list (string * value))
    (self : Blockchain) :
  lookup "sender" d = None \/ lookup "recipient" d = None
  \/ lookup "amount" d = None ->
  App.new_transaction (VDict d) self = (Ok (VStr "Missing values", 400), self).
Proof.
  intros H. unfold App.new_transaction. cbn [App.all_in App.contains bind].
  destruct (lookup "sender" d); [|reflexivity]. cbn [bind].
  destruct (lookup "recipient" d); [|reflexivity]. cbn [bind].
  destruct (lookup "amount" d); [|reflexivity].
  destruct H as [H|[H|H]]; discriminate H.
Qed.

Lemma route_rejects_missing_values_witness :
  App.new_transaction
    (VDict [ ("sender", VStr "alice"); ("amount", VInt 5) ]%string) sealed
  = (Ok (VStr "Missing values", 400), sealed).
Proof.
  apply route_rejects_missing_values. right. left. reflexivity.
Defined.

(** X6.  A body that is a JSON object with the three keys is accepted
    whatever else it holds and whatever the three values are: one
    transaction made of these three values, and of nothing else of the
    body, is appended to the pool, the chain is untouched, and on a ledger
    whose last block has the int index [i] the answer has the status 201
    and names block [i + 1]. *)
Theorem route_accepts_three_values (d : list (string * value))
    (self : Blockchain) (s r a lb : value) (i : Z) :
  lookup "sender" d = Some s ->
  lookup "recipient" d = Some r ->
  lookup "amount" d = Some a ->
  last_block self = Ok lb ->
  subscript lb "index" = Ok (VInt i) ->
  App.new_transaction (VDict d) self
  = (Ok (VDict [ ("message",
                  VStr ("Transaction will be added to Block "
                        ++ str_of_int (i + 1))) ]%string,
         201),
     {| chain := chain self;
        current_transactions := current_transactions self ++ [transaction s r a];
        nodes := nodes self |}).
Proof.
  intros Hs Hr Ha Hlb Hi.
  unfold App.new_transaction. cbn [App.all_in App.contains bind subscript].
  rewrite Hs, Hr, Ha. cbn [bind].
  rewrite (new_transaction_last_index self s r a lb i Hlb Hi).
  reflexivity.
Qed.

Lemma route_accepts_three_values_witness :
  App.new_transaction
    (VDict [ ("note", VStr "rent"); ("sender", VStr "alice");
             ("recipient", VStr "bob"); ("amount", VInt 5) ]%string) sealed
  = (Ok (VDict [ ("message",
                  VStr "Transaction will be added to Block 3") ]%string,
         201),
     {| chain := chain sealed;
        current_transactions :=
          [transaction (VStr "alice") (VStr "bob") (VInt 5)];
        nodes := [] |}).
Proof.
  apply (route_accepts_three_values _ sealed (VStr "alice") (VStr "bob")
           (VInt 5) (last (chain sealed) VNone) 2); reflexivity.
Defined.

(** The test of the route raises nothing but TypeError. *)
Lemma all_in_raises (values : value) (required : list string) (e : exn) :
  App.all_in values required = Raise e -> e = TypeError.
Proof.
  induction required as [|k required IH]; cbn [App.all_in]; [discriminate|].
  destruct (App.contains values k) as [[|]|e'] eqn:Hc; cbn [bind]; intros H.
  - now apply IH.
  - discriminate H.
  - injection H as <-.
    destruct values; cbn [App.contains] in Hc; congruence.
Qed.

(** X7.  A body that is not a JSON object never adds a transaction.  A
    list or a str that does not hold the three names is answered with
    Missing values; one that holds them passes the test of the route and
    makes it raise TypeError at [values['sender']]; any other value makes
    the test itself raise TypeError.  The ledger is left as it was in all
    these cases. *)
Theorem route_body_not_an_object (values : value) (self : Blockchain) :
  (forall d, values <> VDict d) ->
  snd (App.new_transaction values self) = self /\
  (fst (App.new_transaction values self) = Ok (VStr "Missing values", 400) \/
   fst (App.new_transaction values self) = Raise TypeError) /\
  (App.all_in values ["sender"; "recipient"; "amount"]%string = Ok true ->
   fst (App.new_transaction values self) = Raise TypeError).
Proof.
  intros Hnd. unfold App.new_transaction.
  destruct (App.all_in values ["sender"; "recipient"; "amount"]%string)
    as [[|]|e] eqn:Hall.
  - assert (Hs : subscript values "sender" = Raise TypeError).
    { destruct values as [| | | | | |d]; try reflexivity. now elim (Hnd d). }
    rewrite Hs. cbn [bind fst snd]. auto.
  - cbn [fst snd]. split; [reflexivity|]. split; [now left | discriminate].
  - cbn [fst snd]. split; [reflexivity|]. split; [|discriminate].
    right. f_equal. now apply all_in_raises in Hall.
Qed.

(** The list of the three names passes the test and makes the route
    raise. *)
Lemma route_body_not_an_object_witness :
  App.new_transaction
    (VList [VStr "sender"; VStr "recipient"; VStr "amount"]) sealed
  = (Raise TypeError, sealed).
Proof.
  pose proof (route_body_not_an_object
                (VList [VStr "sender"; VStr "recipient"; VStr "amount"]) sealed)
    as (Hs & _ & Hf); [discriminate|].
  rewrite (surjective_pairing (App.new_transaction _ sealed)).
  now rewrite Hs, Hf.
Defined.

(** ** The ledger of the running program *)

Lemma consensus_state (rs : list response) (self : Blockchain) :
  snd (App.consensus rs self) = snd (resolve_conflicts rs self).
Proof.
  unfold App.consensus. now destruct (resolve_conflicts rs self).
Qed.

Lemma resolve_conflicts_pool (rs : list response) (self : Blockchain) :
  current_transactions (snd (resolve_conflicts rs self))
  = current_transactions self.
Proof.
  destruct (resolve_conflicts_cases rs self)
    as [[e ->]|[[-> _]|(r & _ & _ & _ & ->)]]; reflexivity.
Qed.

(** *** Where the embedding computes in full

    [Unmodelled] marks what the embedding does not compute: the text of a
    proof that is not an int, and the successor of a float index.  On a
    ledger of typed blocks, and with peers that answer with typed blocks,
    no route ends there. *)

Lemma subscript_raises (v : value) (k : string) (e : exn) :
  subscript v k = Raise e -> e <> Unmodelled.
Proof.
  destruct v as [| | | | | |d]; cbn [subscript];
    try (intros [= <-]; discriminate).
  destruct (lookup k d); [discriminate|]. intros [= <-]. discriminate.
Qed.

Lemma last_item_in (l : list value) (b : value) :
  last_item l = Ok b -> In b l.
Proof.
  destruct l as [|x l]; [discriminate|]. intros [= <-].
  revert x. induction l as [|y l IH]; intros x; [now left|].
  right. apply (IH y).
Qed.

Lemma valid_chain_from_modelled (rest : list value) :
  forall prev : value,
    Forall (int_field "proof") (prev :: rest) ->
    valid_chain_from prev rest <> Raise Unmodelled.
Proof.
  induction rest as [|b rest IH]; intros prev H; [discriminate|].
  inversion H as [|? ? Hprev H']; subst.
  inversion H' as [|? ? Hb _]; subst.
  cbn [valid_chain_from].
  destruct (subscript b "previous_hash") as [ph|e] eqn:Hph; cbn [bind];
    [|intros [= ->]; now apply subscript_raises in Hph].
  destruct (ne_str ph (hash prev)); [discriminate|].
  destruct (subscript prev "proof") as [lp|e] eqn:Hlp; cbn [bind];
    [|intros [= ->]; now apply subscript_raises in Hlp].
  destruct (subscript b "proof") as [p|e] eqn:Hp; cbn [bind];
    [|intros [= ->]; now apply subscript_raises in Hp].
  destruct (Hprev lp Hlp) as [m ->]. destruct (Hb p Hp) as [k ->].
  cbn [as_int bind].
  destruct (negb (valid_proof m k)); [discriminate | now apply IH].
Qed.

Lemma new_transaction_modelled (self : Blockchain) (s r a : value) :
  Forall typed (chain self) ->
  fst (new_transaction s r a self) <> Raise Unmodelled.
Proof.
  intros Ht. unfold new_transaction, last_block. cbn [fst chain].
  destruct (last_item (chain self)) as [lb|e] eqn:Hlb; cbn [bind].
  - assert (Hin : In lb (chain self)) by now apply last_item_in.
    destruct (subscript lb "index") as [i|e] eqn:Hi; cbn [bind].
    + destruct (proj1 (Forall_forall _ _) Ht lb Hin) as [_ Hidx].
      destruct (Hidx i Hi) as [z ->]. discriminate.
    + intros [= ->]. now apply subscript_raises in Hi.
  - destruct (chain self); [injection Hlb as <-; discriminate
                           | discriminate Hlb].
Qed.

Lemma typed_ledger_modelled (self : Blockchain) :
  Forall typed (chain self) ->
  (forall values, fst (App.new_transaction values self) <> Raise Unmodelled) /\
  (forall fuel node_identifier time r self',
     mine fuel node_identifier time self = Some (r, self') ->
     r <> Raise Unmodelled) /\
  (forall rs,
     (forall r, In r rs -> status_code r = 200 ->
                Forall typed (json_chain r)) ->
     fst (App.consensus rs self) <> Raise Unmodelled).
Proof.
  intros Ht. split; [|split].
  - intros values. unfold App.new_transaction.
    destruct (App.all_in values ["sender"; "recipient"; "amount"]%string)
      as [[|]|e] eqn:Hall; cbn [fst];
      [| discriminate | apply all_in_raises in Hall; subst e; discriminate].
    destruct (subscript values "sender") as [s|e] eqn:Hs; cbn [bind fst];
      [|intros [= ->]; now apply subscript_raises in Hs].
    destruct (subscript values "recipient") as [r|e] eqn:Hr; cbn [bind fst];
      [|intros [= ->]; now apply subscript_raises in Hr].
    destruct (subscript values "amount") as [a|e] eqn:Ha; cbn [bind fst];
      [|intros [= ->]; now apply subscript_raises in Ha].
    pose proof (new_transaction_modelled self s r a Ht) as Hnt.
    destruct (new_transaction s r a self) as [[i|e] self1] eqn:H1;
      cbn [fst bind] in *; [|intros [= ->]; now elim Hnt].
    unfold new_transaction in H1. injection H1 as H1 _.
    destruct (last_block _) as [lb|]; cbn [bind] in H1; [|discriminate H1].
    destruct (subscript lb "index") as [j|]; cbn [bind] in H1;
      [|discriminate H1].
    destruct j; cbn [plus_one] in H1; try discriminate H1;
      injection H1 as <-; discriminate.
  - intros fuel n time r self' H. unfold mine in H.
    destruct (last_block self) as [lb|e] eqn:Hlb; cbn [bind] in H.
    2:{ injection H as <- _. unfold last_block in Hlb.
        destruct (chain self); [injection Hlb as <-; discriminate
                               | discriminate Hlb]. }
    assert (Hin : In lb (chain self)) by now apply last_item_in.
    destruct (subscript lb "proof") as [lp|e] eqn:Hlp; cbn [bind] in H.
    2:{ injection H as <- _. intros [= ->].
        now apply subscript_raises in Hlp. }
    destruct (proj1 (Forall_forall _ _) Ht lb Hin) as [Hproof _].
    destruct (Hproof lp Hlp) as [a ->]. cbn [as_int bind] in H.
    destruct (proof_of_work fuel a) as [p|]; [|discriminate H].
    pose proof (new_transaction_modelled self (VStr "0") (VStr n) (VInt 1) Ht)
      as Hnt.
    destruct (new_transaction (VStr "0") (VStr n) (VInt 1) self)
      as [[v|e] self1]; cbn [fst] in Hnt.
    2:{ injection H as <- _. exact Hnt. }
    assert (Htruthy : truthy lb = true).
    { destruct lb as [| | | | | |d]; try discriminate Hlp.
      destruct d; [discriminate Hlp | reflexivity]. }
    unfold new_block in H. rewrite Htruthy in H. cbn in H.
    injection H as <- _. discriminate.
  - intros rs Hrs H. unfold App.consensus, resolve_conflicts in H.
    destruct (resolve_loop rs (Z.of_nat (length (chain self))) None)
      as [[[|b c]|]|e] eqn:Hloop; cbn [fst bind] in H; try discriminate H.
    injection H as ->.
    apply resolve_loop_raises in Hloop.
    destruct Hloop as (before & r & after & -> & (Hs & _) & Hv & _).
    assert (Hint : Forall (int_field "proof") (json_chain r)).
    { eapply Forall_impl; [|apply (Hrs r); [|exact Hs]].
      - now intros b [Hb _].
      - apply in_or_app. right. now left. }
    destruct (json_chain r) as [|b c]; [discriminate Hv|].
    now apply valid_chain_from_modelled in Hint.
Qed.

(** X8.  In the program, [new_block] is called by [__init__] and by the
    [/mine] route only.  So whatever requests the node serves
    (transactions, mining, consensus rounds in which the peers answer with
    blocks whose proof and index are ints), its chain is never empty,
    every block after the first carries a proof that [valid_proof] accepts
    against the proof of the block before it, every block has an int as
    proof and as index if it has any, and every pending transaction is a
    dict of exactly the three fields sender, recipient and amount. *)
Theorem served_ledger_invariant (self : Blockchain) :
  served self ->
  chain self <> [] /\
  proof_linked (chain self) /\
  Forall typed (chain self) /\
  Forall is_transaction (current_transactions self).
Proof.
  induction 1 as [time | self values _ IH
                 | self self' fuel n time r _ IH Hm
                 | self rs _ IH Hrs].
  - split; [discriminate|]. split; [apply chained_single|].
    split; [|constructor].
    constructor; [split; int_field_of_block | constructor].
  - destruct IH as (Hne & Hl & Ht & Hp).
    destruct (route_new_transaction_state values self)
      as [->|(s & r & a & _ & _ & _ & ->)]; [now repeat split|].
    cbn [new_transaction snd chain current_transactions].
    split; [exact Hne|]. split; [exact Hl|]. split; [exact Ht|].
    apply Forall_app. split; [exact Hp|].
    constructor; [now exists s, r, a | constructor].
  - destruct IH as (Hne & Hl & Ht & Hp).
    destruct (mine_outcome _ _ _ _ _ _ Hm)
      as [(e & _ & Hc & _ & Hpool)|(lb & a & p & Hlb & Ha & Hpow & Hs & _)].
    + rewrite Hc. split; [exact Hne|]. split; [exact Hl|].
      split; [exact Ht|].
      destruct Hpool as [->| ->]; [exact Hp|].
      apply Forall_app. split; [exact Hp|].
      constructor; [now eexists _, _, _ | constructor].
    + cbv zeta in Hs. subst self'. cbn [chain current_transactions].
      split; [intros E; now apply app_eq_nil in E as [_ E]|].
      split; [|split; [|constructor]].
      * apply chained_snoc; [exact Hne|]. split; [exact Hl|].
        unfold last_block in Hlb. rewrite (last_item_ok _ Hne) in Hlb.
        injection Hlb as ->.
        destruct (proof_of_work_from_sound _ _ _ _ Hpow) as (_ & Hv & _).
        exists a, p. split; [exact Ha|]. split; [reflexivity | exact Hv].
      * apply Forall_app. split; [exact Ht|].
        constructor; [|constructor].
        split; intros v Hv; cbn in Hv; injection Hv as <-; eexists;
          reflexivity.
  - destruct IH as (Hne & Hl & Ht & Hp).
    rewrite consensus_state, resolve_conflicts_pool.
    destruct (resolve_conflicts_linked rs self Hne) as (_ & H & Hne').
    split; [exact Hne'|]. split; [exact (H Hl)|]. split; [|exact Hp].
    destruct (resolve_conflicts_cases rs self)
      as [[e ->]|[[-> _]|(r & Hin & (Hst & _) & _ & ->)]];
      cbn [snd chain]; [exact Ht | exact Ht | now apply Hrs].
Qed.

(** A new node ran a consensus round and took the chain of its peer, was
    sent one transaction and mined a block: its chain has three blocks. *)
Lemma served_ledger_invariant_witness :
  served served_example /\
  length (chain served_example) = 3%nat /\
  current_transactions served_example = [] /\
  proof_linked (chain served_example) /\
  Forall typed (chain served_example).
Proof.
  assert (Hs : served served_example).
  { unfold served_example.
    destruct (mine 20 "node" "3.5" _) as [[r self]|] eqn:Hm;
      [|vm_compute in Hm; discriminate Hm].
    eapply served_mine; [|exact Hm].
    apply served_transaction, served_consensus; [apply served_init|].
    intros r0 [<-|[]] _. cbn [json_chain].
    repeat constructor; int_field_of_block. }
  split; [exact Hs|].
  split; [vm_compute; reflexivity|]. split; [vm_compute; reflexivity|].
  destruct (served_ledger_invariant _ Hs) as (_ & Hl & Ht & _).
  split; [exact Hl | exact Ht].
Defined.

(** ** Two nodes *)

(** X9.  What a node serves at [/chain] is an answer that a peer can
    take: when [valid_chain] accepts the chain of the node that serves,
    the peer that resolves against it adopts exactly that chain if it is
    longer than its own, keeping its own pending transactions, and keeps
    its own chain otherwise. *)
Theorem served_chain_adopted_when_longer (peer self : Blockchain) :
  valid_chain (chain peer) = Ok true ->
  exists r : response,
    fetched (App.full_chain peer) = Some r /\
    ((length (chain self) < length (chain peer))%nat ->
     resolve_conflicts [r] self
     = (Ok true,
        {| chain := chain peer;
           current_transactions := current_transactions self;
           nodes := nodes self |})) /\
    ((length (chain peer) <= length (chain self))%nat ->
     resolve_conflicts [r] self = (Ok false, self)).
Proof.
  intros Hv.
  exists (mkResponse 200 (Z.of_nat (length (chain peer))) (chain peer)).
  split; [reflexivity|]. split; intros Hlen.
  - unfold resolve_conflicts.
    cbn [resolve_loop status_code json_length json_chain Z.eqb Pos.eqb].
    replace (Z.of_nat (length (chain peer)) >? Z.of_nat (length (chain self)))
      with true by (symmetry; apply Z.gtb_lt; lia).
    rewrite Hv. cbn [bind].
    destruct (chain peer) as [|b c]; [discriminate Hv | reflexivity].
  - unfold resolve_conflicts.
    rewrite resolve_loop_none_longer; [reflexivity|].
    intros r [<-|[]] _. cbn [json_length]. lia.
Qed.

(** A new node takes the chain of [sealed]; [sealed] keeps its chain when
    it asks the new node. *)
Lemma served_chain_adopted_when_longer_witness :
  valid_chain (chain sealed) = Ok true /\
  exists r : response,
    fetched (App.full_chain sealed) = Some r /\
    chain (snd (resolve_conflicts [r] (init "1.0"))) = chain sealed.
Proof.
  assert (Hv : valid_chain (chain sealed) = Ok true)
    by (vm_compute; reflexivity).
  split; [exact Hv|].
  destruct (served_chain_adopted_when_longer sealed (init "1.0") Hv)
    as (r & Hf & Hlonger & _).
  exists r. split; [exact Hf|].
  rewrite Hlonger; [reflexivity|]. cbn. lia.
Defined.



(** ** More on consensus *)

(** The loop passes over the answers that [valid_chain] rejects. *)
Lemma resolve_loop_rejects (before rs : list response) (n : Z)
    (nc : option (list value)) :
  (forall r, In r before -> status_code r = 200 -> n < json_length r ->
             valid_chain (json_chain r) = Ok false) ->
  resolve_loop (before ++ rs) n nc = resolve_loop rs n nc.
Proof.
  induction before as [|r before IH]; intros H; [reflexivity|].
  cbn [app resolve_loop].
  assert (IH' : resolve_loop (before ++ rs) n nc = resolve_loop rs n nc)
    by (apply IH; intros r' Hin; apply H; now right).
  destruct (status_code r =? 200) eqn:Hs; [|exact IH'].
  apply Z.eqb_eq in Hs.
  destruct (json_length r >? n) eqn:Hl; [|exact IH'].
  apply Z.gtb_lt in Hl. now rewrite (H r (or_introl eq_refl) Hs Hl).
Qed.

(** X11.  [valid_chain] checks links only, and a chain of one block has
    none; [resolve_conflicts] trusts the length that the answer reports.
    So one answer that reports more blocks than the node has and carries
    a single block, whatever that block is, replaces the whole chain of
    the node by that block, provided that [valid_chain] returns False on
    every answer with status 200 before it that reports more than the
    local length, and on every answer with status 200 after it that
    reports more than it does.  (The answers that report no more are not
    looked at.) *)
Theorem single_block_takes_over (self : Blockchain) (b : value) (len : Z)
    (before after : list response) :
  (forall r, In r before -> status_code r = 200 ->
             Z.of_nat (length (chain self)) < json_length r ->
             valid_chain (json_chain r) = Ok false) ->
  (forall r, In r after -> status_code r = 200 -> len < json_length r ->
             valid_chain (json_chain r) = Ok false) ->
  Z.of_nat (length (chain self)) < len ->
  resolve_conflicts (before ++ mkResponse 200 len [b] :: after) self
  = (Ok true,
     {| chain := [b];
        current_transactions := current_transactions self;
        nodes := nodes self |}).
Proof.
  intros Hb Ha Hlen. unfold resolve_conflicts.
  rewrite resolve_loop_rejects by exact Hb.
  cbn [resolve_loop status_code json_length json_chain Z.eqb Pos.eqb
       valid_chain valid_chain_from bind].
  replace (len >? Z.of_nat (length (chain self))) with true
    by (symmetry; apply Z.gtb_lt; lia).
  rewrite <- (app_nil_r after).
  now rewrite resolve_loop_rejects by exact Ha.
Qed.

(** The ledger [sealed], of two blocks, is left with the int 0 as its
    only block, between a tampered chain that reports three blocks, an
    empty chain that reports two and a tampered chain that reports
    five. *)
Lemma single_block_takes_over_witness :
  resolve_conflicts
    [ mkResponse 200 3 [peer_genesis; tampered_block; peer_block];
      mkResponse 200 2 [];
      mkResponse 200 4 [VInt 0];
      mkResponse 200 5 [peer_genesis; tampered_block] ] sealed
  = (Ok true,
     {| chain := [VInt 0];
        current_transactions := current_transactions sealed;
        nodes := nodes sealed |}).
Proof.
  apply (single_block_takes_over sealed (VInt 0) 4
           [ mkResponse 200 3 [peer_genesis; tampered_block; peer_block];
             mkResponse 200 2 [] ]
           [ mkResponse 200 5 [peer_genesis; tampered_block] ]).
  - intros r [<-|[<-|[]]] _ Hl; vm_compute in Hl;
      [vm_compute; reflexivity | discriminate Hl].
  - intros r [<-|[]] _ _. vm_compute. reflexivity.
  - vm_compute. reflexivity.
Defined.

(** A block without [previous_hash], or that is not a dict, makes
    [valid_chain] raise when the blocks before it are linked. *)
Lemma valid_chain_raises_at (c rest : list value) (block : value) (e : exn) :
  c <> [] -> linked c ->
  subscript block "previous_hash" = Raise e ->
  valid_chain (c ++ block :: rest) = Raise e.
Proof.
  intros Hne Hl Hb. destruct c as [|prev c]; [now elim Hne|].
  cbn [app valid_chain]. clear Hne. revert prev Hl.
  induction c as [|x c IH]; intros prev Hl.
  - cbn [app valid_chain_from]. now rewrite Hb.
  - apply chained_cons in Hl as [Hpx Hl].
    cbn [app]. rewrite valid_chain_from_step by exact Hpx. now apply IH.
Qed.

(** X12.  An exception of [valid_chain] is not caught: when an answer
    with status 200 reports more blocks than the node has and carries a
    chain on which [valid_chain] raises, such as a chain with a block that
    has no [previous_hash] or is not a dict after blocks that are linked,
    [resolve_conflicts] raises the same exception and leaves the node as
    it was, whatever the answers that follow, valid or not. *)
Theorem resolve_conflicts_raises (self : Blockchain) (r : response)
    (before rest : list response) (e : exn) :
  (forall r', In r' before -> status_code r' = 200 ->
              json_length r' <= Z.of_nat (length (chain self))) ->
  status_code r = 200 ->
  Z.of_nat (length (chain self)) < json_length r ->
  valid_chain (json_chain r) = Raise e
  \/ (exists c block more,
        json_chain r = c ++ block :: more /\ c <> [] /\ linked c /\
        subscript block "previous_hash" = Raise e) ->
  resolve_conflicts (before ++ r :: rest) self = (Raise e, self).
Proof.
  intros Hb Hs Hlen Hv.
  assert (Hv' : valid_chain (json_chain r) = Raise e).
  { destruct Hv as [Hv|(c & block & more & -> & Hne & Hl & Hk)];
      [exact Hv | now apply valid_chain_raises_at]. }
  unfold resolve_conflicts. rewrite resolve_loop_skips by exact Hb.
  cbn [resolve_loop]. rewrite Hs. cbn [Z.eqb Pos.eqb].
  replace (json_length r >? Z.of_nat (length (chain self))) with true
    by (symmetry; apply Z.gtb_lt; lia).
  now rewrite Hv'.
Qed.

(** The answer with [broken_chain] comes first: the valid chain of the
    answer that follows is not taken. *)
Lemma resolve_conflicts_raises_witness :
  resolve_conflicts [ mkResponse 200 2 broken_chain;
                      mkResponse 200 2 [peer_genesis; peer_block] ]
                    (init "1.0")
  = (Raise TypeError, init "1.0").
Proof.
  apply (resolve_conflicts_raises (init "1.0")
           (mkResponse 200 2 broken_chain) [] _ TypeError).
  - intros r [].
  - reflexivity.
  - cbn. lia.
  - right. exists [peer_genesis], (VInt 5), [].
    split; [reflexivity|]. split; [discriminate|].
    split; [apply chained_single | reflexivity].
Defined.

(** The loop, with the place of the answer it ends with: the answers
    before it that qualify report strictly less, those after it report no
    more. *)
Lemma resolve_loop_first (rs : list response) :
  forall (n : Z) (nc res : option (list value)),
    resolve_loop rs n nc = Ok res ->
    (res = nc /\ forall r, In r rs -> ~ qualifies n r) \/
    (exists before r after,
       rs = before ++ r :: after /\ qualifies n r /\
       res = Some (json_chain r) /\
       (forall r', In r' before -> qualifies n r' ->
                   json_length r' < json_length r) /\
       (forall r', In r' after -> qualifies n r' ->
                   json_length r' <= json_length r)).
Proof.
  induction rs as [|r rs IH]; intros n nc res H.
  - left. injection H as <-. split; [reflexivity | intros r []].
  - cbn [resolve_loop] in H.
    assert (Hskip :
      ~ qualifies n r -> resolve_loop rs n nc = Ok res ->
      (res = nc /\ forall r', In r' (r :: rs) -> ~ qualifies n r') \/
      (exists before r0 after,
         r :: rs = before ++ r0 :: after /\ qualifies n r0 /\
         res = Some (json_chain r0) /\
         (forall r', In r' before -> qualifies n r' ->
                     json_length r' < json_length r0) /\
         (forall r', In r' after -> qualifies n r' ->
                     json_length r' <= json_length r0))).
    { intros Hnq Hrest.
      destruct (IH _ _ _ Hrest)
        as [[-> Hno]|(before & r0 & after & -> & Hq & -> & Hlt & Hle)].
      - left. split; [reflexivity|]. intros r' [<-|Hin']; auto.
      - right. exists (r :: before), r0, after.
        split; [reflexivity|]. split; [exact Hq|]. split; [reflexivity|].
        split; [|exact Hle].
        intros r' [<-|Hin'] Hq'; [now elim Hnq | auto]. }
    destruct (status_code r =? 200) eqn:Hs;
      [|apply Hskip; [intros (Hc & _); apply Z.eqb_neq in Hs; auto | exact H]].
    apply Z.eqb_eq in Hs.
    destruct (json_length r >? n) eqn:Hl;
      [|apply Hskip; [intros (_ & Hc & _); rewrite Z.gtb_ltb in Hl;
                      apply Z.ltb_ge in Hl; lia | exact H]].
    rewrite Z.gtb_ltb in Hl. apply Z.ltb_lt in Hl.
    destruct (valid_chain (json_chain r)) as [[|]|e] eqn:Hv; cbn [bind] in H;
      [| apply Hskip; [intros (_ & _ & Hc); congruence | exact H]
       | discriminate].
    assert (Hq : qualifies n r) by (repeat split; assumption).
    right.
    destruct (IH _ _ _ H)
      as [[-> Hno]|(before & r0 & after & -> & Hq0 & -> & Hlt & Hle)].
    + exists [], r, rs. split; [reflexivity|]. split; [exact Hq|].
      split; [reflexivity|]. split; [intros r' []|].
      intros r' Hin' (Hs' & Hl' & Hv').
      destruct (Z_le_gt_dec (json_length r') (json_length r)) as [Hle|Hgt];
        [exact Hle|].
      elim (Hno r' Hin'). repeat split; [exact Hs' | lia | exact Hv'].
    + destruct Hq0 as (Hs0 & Hl0 & Hv0).
      exists (r :: before), r0, after. split; [reflexivity|].
      split; [repeat split; [exact Hs0 | lia | exact Hv0]|].
      split; [reflexivity|]. split.
      * intros r' [<-|Hin'] (Hs' & Hl' & Hv'); [lia|].
        destruct (Z_le_gt_dec (json_length r') (json_length r)) as [Hle'|Hgt];
          [lia|].
        apply Hlt; [exact Hin'|]. repeat split; [exact Hs' | lia | exact Hv'].
      * intros r' Hin' (Hs' & Hl' & Hv').
        destruct (Z_le_gt_dec (json_length r') (json_length r)) as [Hle'|Hgt];
          [lia|].
        apply Hle; [exact Hin'|]. repeat split; [exact Hs' | lia | exact Hv'].
Qed.

(** X13.  The comparison with [max_length] is strict, so among the
    answers that qualify and report the greatest length the first one in
    the order of iteration is taken: every qualifying answer before it
    reports strictly less, every one after it reports no more. *)
Theorem resolve_conflicts_takes_first_longest (rs : list response)
    (self self' : Blockchain) :
  resolve_conflicts rs self = (Ok true, self') ->
  let n := Z.of_nat (length (chain self)) in
  exists before r after,
    rs = before ++ r :: after /\ qualifies n r /\
    chain self' = json_chain r /\
    (forall r', In r' before -> qualifies n r' ->
                json_length r' < json_length r) /\
    (forall r', In r' after -> qualifies n r' ->
                json_length r' <= json_length r).
Proof.
  intros H n. unfold resolve_conflicts in H. fold n in H.
  destruct (resolve_loop rs n None) as [res|e] eqn:Hloop; [|discriminate H].
  destruct (resolve_loop_first _ _ _ _ Hloop)
    as [[-> _]|(before & r & after & Hrs & Hq & -> & Hlt & Hle)];
    [discriminate H|].
  exists before, r, after. split; [exact Hrs|]. split; [exact Hq|].
  split; [|split; [exact Hlt | exact Hle]].
  destruct (json_chain r) as [|b c]; [discriminate H|].
  now injection H as <-.
Qed.

(** Two valid chains of two blocks: the one that comes first is taken. *)
Lemma resolve_conflicts_takes_first_longest_witness :
  exists self',
    resolve_conflicts [ mkResponse 200 2 [peer_genesis; peer_block_later];
                        mkResponse 200 2 [peer_genesis; peer_block] ]
                      (init "1.0")
    = (Ok true, self') /\
    exists before r after,
      [ mkResponse 200 2 [peer_genesis; peer_block_later];
        mkResponse 200 2 [peer_genesis; peer_block] ]
      = before ++ r :: after /\
      chain self' = json_chain r /\
      (forall r', In r' before ->
                  qualifies (Z.of_nat (length (chain (init "1.0")))) r' ->
                  json_length r' < json_length r).
Proof.
  destruct (resolve_conflicts
              [ mkResponse 200 2 [peer_genesis; peer_block_later];
                mkResponse 200 2 [peer_genesis; peer_block] ] (init "1.0"))
    as [[[|]|e] self'] eqn:H;
    [| vm_compute in H; discriminate H | vm_compute in H; discriminate H].
  exists self'. split; [reflexivity|].
  destruct (resolve_conflicts_takes_first_longest _ _ _ H)
    as (before & r & after & Hrs & _ & Hc & Hlt & _).
  exists before, r, after. split; [exact Hrs|]. split; [exact Hc | exact Hlt].
Defined.

(** When [valid_chain] raises on no answer, a call returns. *)
Lemma resolve_conflicts_returns (rs : list response) (self : Blockchain) :
  Forall (fun r => status_code r = 200 ->
                   exists v : bool, valid_chain (json_chain r) = Ok v) rs ->
  let n := Z.of_nat (length (chain self)) in
  (resolve_conflicts rs self = (Ok false, self) /\
   forall r, In r rs -> ~ qualifies n r) \/
  (exists r, In r rs /\ qualifies n r /\
             (forall r', In r' rs -> qualifies n r' ->
                         json_length r' <= json_length r) /\
             resolve_conflicts rs self
             = (Ok true,
                {| chain := json_chain r;
                   current_transactions := current_transactions self;
                   nodes := nodes self |})).
Proof.
  intros Hok n.
  destruct (resolve_conflicts_cases rs self) as [[e He]|H]; [|exact H].
  exfalso. unfold resolve_conflicts in He.
  destruct (resolve_loop_total rs Hok (Z.of_nat (length (chain self))) None)
    as [res Hl].
  rewrite Hl in He. destruct res as [[|b c]|]; discriminate.
Qed.

(** X14.  The nodes are kept in a set, which is iterated in no fixed
    order.  When [valid_chain] raises on no answer, and the answers that
    qualify with the same reported length carry the same chain, the order
    does not matter: [resolve_conflicts] returns the same flag and leaves
    the same ledger for every order of the answers. *)
Theorem resolve_conflicts_order_independent (rs rs' : list response)
    (self : Blockchain) :
  Permutation rs rs' ->
  Forall (fun r => status_code r = 200 ->
                   exists v : bool, valid_chain (json_chain r) = Ok v) rs ->
  (forall r1 r2,
     In r1 rs -> In r2 rs ->
     qualifies (Z.of_nat (length (chain self))) r1 ->
     qualifies (Z.of_nat (length (chain self))) r2 ->
     json_length r1 = json_length r2 -> json_chain r1 = json_chain r2) ->
  resolve_conflicts rs self = resolve_conflicts rs' self.
Proof.
  intros Hperm Hok Huniq.
  assert (Hok' : Forall (fun r => status_code r = 200 ->
                           exists v : bool, valid_chain (json_chain r) = Ok v)
                        rs')
    by (eapply Permutation_Forall; eassumption).
  assert (Hin : forall r, In r rs' -> In r rs)
    by (intros r; apply Permutation_in; now apply Permutation_sym).
  destruct (resolve_conflicts_returns rs self Hok)
    as [[-> Hno]|(r & Hr & Hq & Hmax & ->)];
    destruct (resolve_conflicts_returns rs' self Hok')
      as [[-> Hno']|(r' & Hr' & Hq' & Hmax' & ->)].
  - reflexivity.
  - elim (Hno r' (Hin r' Hr') Hq').
  - elim (Hno' r (Permutation_in r Hperm Hr) Hq).
  - f_equal. f_equal.
    apply Huniq; [exact Hr | now apply Hin | exact Hq | exact Hq' |].
    apply Z.le_antisymm.
    + apply Hmax'; [now apply (Permutation_in r Hperm) | exact Hq].
    + apply Hmax; [now apply Hin | exact Hq'].
Qed.

(** The three [answers] in two orders. *)
Lemma resolve_conflicts_order_independent_witness :
  resolve_conflicts answers (init "1.0")
  = resolve_conflicts (rev answers) (init "1.0").
Proof.
  apply resolve_conflicts_order_independent.
  - apply Permutation_rev.
  - exact answers_validate.
  - intros r1 r2 H1 H2 (Hs1 & Hl1 & Hv1) (Hs2 & Hl2 & Hv2) _.
    destruct H1 as [<-|[<-|[<-|[]]]]; destruct H2 as [<-|[<-|[<-|[]]]];
      try reflexivity; try discriminate Hs1; try discriminate Hs2;
      vm_compute in Hv1; vm_compute in Hv2;
      try discriminate Hv1; discriminate Hv2.
Defined.

(** X15.  Whether a call raises does depend on the order.  Take an answer
    on whose chain [valid_chain] raises and a valid answer that reports
    at least as many blocks, both longer than the local chain.  When the
    first comes first the call raises and the node keeps its chain; when
    the valid one comes first it is adopted, and the other one, no longer
    above [max_length], is never validated. *)
Theorem resolve_conflicts_raise_depends_on_order (self : Blockchain)
    (bad good : response) (e : exn) :
  status_code bad = 200 -> status_code good = 200 ->
  Z.of_nat (length (chain self)) < json_length bad ->
  json_length bad <= json_length good ->
  valid_chain (json_chain bad) = Raise e ->
  valid_chain (json_chain good) = Ok true ->
  resolve_conflicts [bad; good] self = (Raise e, self) /\
  resolve_conflicts [good; bad] self
  = (Ok true,
     {| chain := json_chain good;
        current_transactions := current_transactions self;
        nodes := nodes self |}).
Proof.
  intros Hsb Hsg Hlb Hlg Hvb Hvg. unfold resolve_conflicts.
  cbn [resolve_loop]. rewrite Hsb, Hsg. cbn [Z.eqb Pos.eqb].
  replace (json_length bad >? Z.of_nat (length (chain self))) with true
    by (symmetry; apply Z.gtb_lt; lia).
  replace (json_length good >? Z.of_nat (length (chain self))) with true
    by (symmetry; apply Z.gtb_lt; lia).
  rewrite Hvb, Hvg. cbn [bind].
  replace (json_length bad >? json_length good) with false
    by (symmetry; rewrite Z.gtb_ltb; apply Z.ltb_ge; lia).
  split; [reflexivity|].
  destruct (json_chain good) as [|b c]; [discriminate Hvg | reflexivity].
Qed.

Lemma resolve_conflicts_raise_depends_on_order_witness :
  resolve_conflicts [ mkResponse 200 2 broken_chain;
                      mkResponse 200 2 [peer_genesis; peer_block] ]
                    (init "1.0")
  = (Raise TypeError, init "1.0") /\
  fst (resolve_conflicts [ mkResponse 200 2 [peer_genesis; peer_block];
                           mkResponse 200 2 broken_chain ]
                         (init "1.0"))
  = Ok true.
Proof.
  destruct (resolve_conflicts_raise_depends_on_order (init "1.0")
              (mkResponse 200 2 broken_chain)
              (mkResponse 200 2 [peer_genesis; peer_block]) TypeError)
    as [Hraise Hok].
  - reflexivity.
  - reflexivity.
  - vm_compute. reflexivity.
  - vm_compute. discriminate.
  - vm_compute. reflexivity.
  - vm_compute. reflexivity.
  - split; [exact Hraise | now rewrite Hok].
Defined.

(** ** Blocks with their fields in another order *)

Lemma lookup_perm (k : string) (d1 d2 : list (string * value)) :
  Permutation d1 d2 -> NoDup (map fst d1) -> lookup k d1 = lookup k d2.
Proof.
  induction 1 as [|[k' v] l l' Hp IH|[k1 v1] [k2 v2] l|l l' l'' H1 IH1 H2 IH2];
    intros Hnd.
  - reflexivity.
  - cbn [lookup]. destruct (String.eqb k k'); [reflexivity|].
    apply IH. cbn [map fst] in Hnd. now inversion Hnd.
  - cbn [lookup].
    destruct (String.eqb k k1) eqn:E1, (String.eqb k k2) eqn:E2;
      try reflexivity.
    apply String.eqb_eq in E1, E2. cbn [map fst] in Hnd.
    inversion Hnd as [|? ? Hn _]. elim Hn. left. congruence.
  - rewrite IH1 by exact Hnd. apply IH2.
    eapply Permutation_NoDup; [|exact Hnd]. now apply Permutation_map.
Qed.

Lemma lookup_same (k : string) (d d2 : list (string * value)) :
  Forall2 (fun kv1 kv2 => fst kv1 = fst kv2 /\ same (snd kv1) (snd kv2))
          d d2 ->
  (exists x x', lookup k d = Some x /\ lookup k d2 = Some x' /\ same x x') \/
  (lookup k d = None /\ lookup k d2 = None).
Proof.
  induction 1 as [|[k1 v1] [k2 v2] l l' [Hk Hs] _ IH]; [now right|].
  cbn [fst snd] in Hk, Hs. subst k2. cbn [lookup].
  destruct (String.eqb k k1); [left; now exists v1, v2 | exact IH].
Qed.

Lemma lookup_proper (k : string) (d : list (string * value)) (x : value) :
  Forall (fun kv => proper (snd kv)) d -> lookup k d = Some x -> proper x.
Proof.
  induction 1 as [|[k1 v1] l Hv _ IH]; [discriminate|].
  cbn [lookup]. destruct (String.eqb k k1); [|exact IH].
  intros [= <-]. exact Hv.
Qed.

(** [v[k]] on two values with the same content: the same exception, or
    two values with the same content. *)
Lemma subscript_same (v v' : value) (k : string) :
  proper v -> same v v' ->
  (exists x x', subscript v k = Ok x /\ subscript v' k = Ok x' /\
                proper x /\ same x x') \/
  (exists e, subscript v k = Raise e /\ subscript v' k = Raise e).
Proof.
  intros Hp Hs.
  inversion Hs as [| | | | | |d1 d d2 Hperm H2]; subst;
    try (right; exists TypeError; split; reflexivity).
  inversion Hp as [| | | | | |? Hnd Hall]; subst.
  cbn [subscript]. rewrite (lookup_perm k d1 d Hperm Hnd).
  destruct (lookup_same k d d2 H2) as [(x & x' & H & H' & Hx)|[H H']];
    rewrite H, H'.
  - left. exists x, x'. split; [reflexivity|]. split; [reflexivity|].
    split; [|exact Hx].
    apply (lookup_proper k d); [|exact H].
    eapply Permutation_Forall; eassumption.
  - right. exists (KeyError k). now split.
Qed.

Lemma ne_str_same (v v' : value) (s : string) :
  same v v' -> ne_str v s = ne_str v' s.
Proof. intros H. inversion H; reflexivity. Qed.

Lemma as_int_same (v v' : value) : same v v' -> as_int v = as_int v'.
Proof. intros H. inversion H; reflexivity. Qed.

Lemma valid_chain_from_same (rest rest' : list value) :
  Forall2 same rest rest' -> Forall proper rest ->
  forall prev prev', proper prev -> same prev prev' ->
  valid_chain_from prev rest = valid_chain_from prev' rest'.
Proof.
  induction 1 as [|b b' rest rest' Hb _ IH]; intros Hps prev prev' Hp Hs;
    [reflexivity|].
  inversion Hps as [|? ? Hpb Hprest]; subst.
  cbn [valid_chain_from].
  destruct (subscript_same b b' "previous_hash" Hpb Hb)
    as [(x & x' & -> & -> & _ & Hx)|(e & -> & ->)]; [|reflexivity].
  cbn [bind]. rewrite (hash_of_text prev prev' (same_dumps _ _ Hp Hs)).
  rewrite (ne_str_same x x' _ Hx).
  destruct (ne_str x' (hash prev')); [reflexivity|].
  destruct (subscript_same prev prev' "proof" Hp Hs)
    as [(y & y' & -> & -> & _ & Hy)|(e & -> & ->)]; [|reflexivity].
  cbn [bind].
  destruct (subscript_same b b' "proof" Hpb Hb)
    as [(z & z' & -> & -> & _ & Hz)|(e & -> & ->)]; [|reflexivity].
  cbn [bind]. rewrite (as_int_same y y' Hy), (as_int_same z z' Hz).
  destruct (as_int y') as [m|]; [|reflexivity]. cbn [bind].
  destruct (as_int z') as [n|]; [|reflexivity]. cbn [bind].
  destruct (negb (valid_proof m n)); [reflexivity|]. now apply IH.
Qed.

(** X16.  A chain arrives as JSON, and the order in which its objects
    list their fields is the peer's.  On blocks whose proof is an int,
    [valid_chain] does not depend on it: on two chains whose blocks have
    the same content it returns the same flag or raises the same
    exception, IndexError, KeyError or TypeError.  (A proof that is a
    dict is formatted in the order of its items; such a proof is outside
    what the embedding computes.) *)
Theorem valid_chain_field_order (c c' : list value) :
  Forall proper c -> Forall (int_field "proof") c -> Forall2 same c c' ->
  valid_chain c = valid_chain c' /\ valid_chain c <> Raise Unmodelled.
Proof.
  intros Hp Hi Hs. split.
  - destruct Hs as [|b b' rest rest' Hb Hrest]; [reflexivity|].
    inversion Hp; subst. cbn [valid_chain].
    now apply valid_chain_from_same.
  - destruct c as [|b rest]; [discriminate|].
    cbn [valid_chain]. now apply valid_chain_from_modelled.
Qed.

Lemma valid_chain_field_order_witness :
  valid_chain [peer_genesis_shuffled; peer_block_shuffled]
  = valid_chain [peer_genesis; peer_block] /\
  valid_chain [peer_genesis; peer_block] = Ok true.
Proof.
  split; [|vm_compute; reflexivity].
  symmetry. apply valid_chain_field_order.
  - repeat apply Forall_cons; try apply Forall_nil;
      [unfold peer_genesis | unfold peer_block]; properly.
  - repeat constructor; int_field_of_block.
  - apply Forall2_cons; [|apply Forall2_cons; [|apply Forall2_nil]].
    + apply same_dict
        with (d := [ ("previous_hash", VInt 1); ("proof", VInt 100);
                     ("transactions", VList []); ("timestamp", VFloat "1.5");
                     ("index", VInt 1) ]%string).
      * permute.
      * same_items.
    + apply same_dict
        with (d := [ ("proof", VInt 35293);
                     ("previous_hash", VStr (hash peer_genesis));
                     ("index", VInt 7); ("transactions", VList []);
                     ("timestamp", VFloat "2.5") ]%string).
      * permute.
      * same_items.
Defined.

(** ** Parts of a valid chain *)

Lemma chained_app_r (R : value -> value -> Prop) (c more : list value) :
  chained R (c ++ more) -> chained R more.
Proof.
  intros H i prev block H1 H2. apply (H (length c + i)%nat).
  - rewrite nth_error_app2 by lia.
    now replace (length c + i - length c)%nat with i by lia.
  - replace (S (length c + i)) with (length c + S i)%nat by lia.
    rewrite nth_error_app2 by lia.
    now replace (length c + S i - length c)%nat with (S i) by lia.
Qed.

(** X17.  [valid_chain] compares neighbours only; nothing ties a chain to
    its first block.  So every run of consecutive blocks cut out of a
    chain that validates is a chain that validates: the history before
    it can be dropped. *)
Theorem valid_chain_segment (before c after : list value) :
  c <> [] ->
  valid_chain (before ++ c ++ after) = Ok true ->
  valid_chain c = Ok true.
Proof.
  intros Hne H. apply valid_chain_true in H. destruct H as [_ H].
  apply valid_chain_true. split; [exact Hne|].
  apply chained_app_r in H. now apply chained_app_l in H.
Qed.

Lemma valid_chain_segment_witness :
  valid_chain [peer_block] = Ok true.
Proof.
  apply (valid_chain_segment [peer_genesis] [peer_block] []).
  - discriminate.
  - vm_compute. reflexivity.
Defined.

(** ** The shape of a hash *)

Lemma hexchar_is_hex (d : Z) : 0 <= d < 16 -> is_hex (SHA256.hexchar d).
Proof.
  intros H.
  assert (Hd : d = 0 \/ d = 1 \/ d = 2 \/ d = 3 \/ d = 4 \/ d = 5 \/ d = 6 \/
               d = 7 \/ d = 8 \/ d = 9 \/ d = 10 \/ d = 11 \/ d = 12 \/
               d = 13 \/ d = 14 \/ d = 15) by lia.
  repeat (destruct Hd as [->|Hd]; [vm_compute; tauto|]).
  subst d. vm_compute. tauto.
Qed.

Lemma hexword_shape (w : Z) :
  length (SHA256.hexword w) = 8%nat /\ Forall is_hex (SHA256.hexword w).
Proof.
  unfold SHA256.hexword. split.
  - now rewrite length_map, length_rev, length_seq.
  - apply Forall_map, Forall_forall. intros i _. apply hexchar_is_hex.
    change 15 with (Z.ones 4). rewrite Z.land_ones by lia.
    apply Z.mod_pos_bound. reflexivity.
Qed.

Lemma length_string_of_list_ascii (l : list ascii) :
  String.length (string_of_list_ascii l) = length l.
Proof. induction l as [|c l IH]; [reflexivity|]. cbn. now rewrite IH. Qed.

(** [hexdigest] gives 64 lowercase hexadecimal digits. *)
Lemma hash_shape (block : value) :
  String.length (hash block) = 64%nat /\
  Forall is_hex (list_ascii_of_string (hash block)).
Proof.
  change (hash block) with (SHA256.hex (SHA256.digest (SHA256.bytes_of (dumps block)))).
  generalize (SHA256.digest (SHA256.bytes_of (dumps block))). intros s.
  unfold SHA256.hex.
  rewrite length_string_of_list_ascii, list_ascii_of_string_of_list_ascii.
  cbn [map concat]. split.
  - repeat rewrite length_app.
    repeat rewrite (proj1 (hexword_shape _)). reflexivity.
  - repeat (apply Forall_app; split; [apply hexword_shape|]).
    apply Forall_nil.
Qed.

(** X18.  What a block must carry to pass: in a chain that validates,
    every block after the first has under [previous_hash] a str of 64
    lowercase hexadecimal digits, the hash of the block before it. *)
Theorem valid_chain_previous_hash_shape (c : list value) (i : nat)
    (block : value) :
  valid_chain c = Ok true ->
  nth_error c (S i) = Some block ->
  exists s : string,
    subscript block "previous_hash" = Ok (VStr s) /\
    String.length s = 64%nat /\
    Forall is_hex (list_ascii_of_string s) /\
    exists prev, nth_error c i = Some prev /\ s = hash prev.
Proof.
  intros H Hb. apply valid_chain_true in H. destruct H as [_ H].
  destruct (nth_error c i) as [prev|] eqn:Hprev.
  - destruct (H i prev block Hprev Hb) as [Hph _].
    exists (hash prev). split; [exact Hph|].
    destruct (hash_shape prev) as [Hlen Hhex].
    split; [exact Hlen|]. split; [exact Hhex|]. now exists prev.
  - apply nth_error_None in Hprev.
    assert (Hlt : (S i < length c)%nat)
      by (apply nth_error_Some; congruence).
    lia.
Qed.

Lemma valid_chain_previous_hash_shape_witness :
  exists s : string,
    subscript peer_block "previous_hash" = Ok (VStr s) /\
    String.length s = 64%nat /\
    Forall is_hex (list_ascii_of_string s) /\
    exists prev,
      nth_error [peer_genesis; peer_block] 0 = Some prev /\ s = hash prev.
Proof.
  apply (valid_chain_previous_hash_shape [peer_genesis; peer_block] 0).
  - vm_compute. reflexivity.
  - reflexivity.
Defined.
